(** * The chunking stage of the document pipeline

    A shallow embedding of [services/document_processing/chunking_service.py]
    (class [ChunkingService]) and of the batch entry point it is called from,
    together with the properties its specification states.

    A Python [str] is a sequence of Unicode code points: it is modelled as a
    list of [N].  The regular expressions of the service are run by a small
    backtracking matcher with the priorities of Python's [re] (greedy and
    lazy repetition), and [re.sub] is the left-to-right scan over
    non-overlapping matches. *)

From Stdlib Require Import List NArith ZArith Bool Lia Arith String Ascii.
From Stdlib Require Import Decimal DecimalString DecimalPos DecimalZ.
From stdpp Require Import gmap strings.
Import ListNotations.

#[local] Open Scope list_scope.

(** ** Strings and character classes *)

Module Char.
#[local] Open Scope N_scope.

Definition nl    : N := 10.   (* '\n' *)
Definition tab   : N := 9.    (* '\t' *)
Definition space : N := 32.   (* ' ' *)
Definition lt    : N := 60.   (* '<' *)
Definition gt    : N := 62.   (* '>' *)
Definition hash  : N := 35.   (* '#' *)

Definition eq_char (a c : N) : bool := c =? a.

Definition in_range (lo hi c : N) : bool := (lo <=? c) && (c <=? hi).

(** [\s] on a [str] pattern and [str.strip()] use the same test,
    [Py_UNICODE_ISSPACE]. *)
Definition is_space (c : N) : bool :=
  in_range 9 13 c || in_range 28 31 c || eq_char 32 c || eq_char 133 c
  || eq_char 160 c || eq_char 5760 c || in_range 8192 8202 c
  || eq_char 8232 c || eq_char 8233 c || eq_char 8239 c || eq_char 8287 c
  || eq_char 12288 c.

(** [[\x00-\x08\x0B\x0C\x0E-\x1F\x7F]] *)
Definition is_control (c : N) : bool :=
  in_range 0 8 c || eq_char 11 c || eq_char 12 c || in_range 14 31 c
  || eq_char 127 c.

(** [[ \t]] *)
Definition is_blank (c : N) : bool := eq_char space c || eq_char tab c.

(** [.] without [re.DOTALL], and with it *)
Definition not_nl (c : N) : bool := negb (eq_char nl c).
Definition any (_ : N) : bool := true.

End Char.

Abbreviation str := (list N).

(** A string literal of the source, read as code points. *)
Definition lit (s : string) : str :=
  map N_of_ascii (list_ascii_of_string s).

(** ** List helpers *)

Section Runs.
Context {A : Type}.
Variable p : A -> bool.

Fixpoint take_while (l : list A) : list A :=
  match l with
  | x :: l' => if p x then x :: take_while l' else []
  | [] => []
  end.

Fixpoint drop_while (l : list A) : list A :=
  match l with
  | x :: l' => if p x then drop_while l' else l
  | [] => []
  end.
End Runs.

(** [str.strip()], [str.split('\n')] and ['\n'.join(...)] *)
Definition lstrip (s : str) : str := drop_while Char.is_space s.
Definition rstrip (s : str) : str := rev (drop_while Char.is_space (rev s)).
Definition strip (s : str) : str := rstrip (lstrip s).

Fixpoint split_nl (s : str) : list str :=
  match s with
  | [] => [[]]
  | c :: s' =>
      if Char.eq_char Char.nl c then [] :: split_nl s'
      else match split_nl s' with
           | l :: ls => (c :: l) :: ls
           | [] => [[c]]
           end
  end.

Fixpoint join_nl (ls : list str) : str :=
  match ls with
  | [] => []
  | [l] => l
  | l :: ls' => l ++ Char.nl :: join_nl ls'
  end.

(** ** Regular expressions

    The patterns of the service are sequences of items over character
    classes.  [rmatch r s] tries [r] at the start of [s] and gives the length
    of the match the backtracking search of [re] finds first. *)

Module Re.

Inductive item : Type :=
| One  (p : N -> bool)    (* a character of the class *)
| Opt  (p : N -> bool)    (* x?  *)
| Star (p : N -> bool)    (* x*  *)
| Plus (p : N -> bool)    (* x+  *)
| Lazy (p : N -> bool)    (* x*? *)
| Eos.                    (* $   *)

Definition regex := list item.

Section Repeat.
Variable p : N -> bool.
Variable k : str -> option nat.

(** take as many as possible, give back one at a time *)
Fixpoint greedy (s : str) : option nat :=
  match s with
  | c :: s' =>
      if p c then
        match greedy s' with
        | Some n => Some (S n)
        | None => k s
        end
      else k s
  | [] => k s
  end.

(** take as few as possible, take one more on failure *)
Fixpoint lazy (s : str) : option nat :=
  match k s with
  | Some n => Some n
  | None =>
      match s with
      | c :: s' => if p c then option_map S (lazy s') else None
      | [] => None
      end
  end.
End Repeat.

Definition one (p : N -> bool) (k : str -> option nat) (s : str) : option nat :=
  match s with
  | c :: s' => if p c then option_map S (k s') else None
  | [] => None
  end.

Definition opt (p : N -> bool) (k : str -> option nat) (s : str) : option nat :=
  match s with
  | c :: s' =>
      if p c then
        match k s' with
        | Some n => Some (S n)
        | None => k s
        end
      else k s
  | [] => k s
  end.

(** [$] without [re.MULTILINE]: the end, or just before a final newline *)
Definition eos (k : str -> option nat) (s : str) : option nat :=
  match s with
  | [] => k s
  | [c] => if Char.eq_char Char.nl c then k s else None
  | _ => None
  end.

Fixpoint rmatch (r : regex) : str -> option nat :=
  match r with
  | [] => fun _ => Some O
  | it :: r' =>
      let k := rmatch r' in
      match it with
      | One p => one p k
      | Opt p => opt p k
      | Star p => greedy p k
      | Plus p => one p (greedy p k)
      | Lazy p => lazy p k
      | Eos => eos k
      end
  end.

(** the items of a literal *)
Definition chars (s : str) : regex := map (fun c => One (Char.eq_char c)) s.

(** [re.match(r, s)] as a truth value *)
Definition matches (r : regex) (s : str) : bool :=
  match rmatch r s with Some _ => true | None => false end.

(** [re.sub(r, repl, s)] for a pattern that matches no empty string (all
    patterns of the service are such, see [*_nonempty] below): scan from
    the left; at a match, emit [repl] of the matched text and resume after
    it; otherwise copy one character.  [skip] counts the characters of the
    current match still to be passed over. *)
Section Sub.
Variable r : regex.
Variable repl : str -> str.

Fixpoint scan (skip : nat) (s : str) : str :=
  match s with
  | [] => []
  | c :: s' =>
      match skip with
      | S j => scan j s'
      | O =>
          match rmatch r s with
          | Some (S n) => repl (firstn (S n) s) ++ scan n s'
          | _ => c :: scan O s'
          end
      end
  end.

Definition sub (s : str) : str := scan O s.
End Sub.

(** [re.sub] with a replacement string *)
Definition sub_const (r : regex) (by_ : str) : str -> str :=
  sub r (fun _ => by_).

End Re.

Import Re.

(** ** The patterns of the service *)

(* r'[\x00-\x08\x0B\x0C\x0E-\x1F\x7F]' *)
Definition control_pattern : regex := [One Char.is_control].
(* r'[ \t]+' *)
Definition blanks_pattern : regex := [Plus Char.is_blank].
(* r'\n\s*\n' *)
Definition blank_lines_pattern : regex :=
  [One (Char.eq_char Char.nl); Star Char.is_space; One (Char.eq_char Char.nl)].
(* r'>\s*\n\s*<' *)
Definition tag_break_pattern : regex :=
  [One (Char.eq_char Char.gt); Star Char.is_space; One (Char.eq_char Char.nl);
   Star Char.is_space; One (Char.eq_char Char.lt)].
(* r'</tr>\s*\n\s*' *)
Definition row_end_pattern : regex :=
  chars (lit "</tr>")
  ++ [Star Char.is_space; One (Char.eq_char Char.nl); Star Char.is_space].
(* r'>\s+' *)
Definition after_tag_pattern : regex :=
  [One (Char.eq_char Char.gt); Plus Char.is_space].
(* r'\s+<' *)
Definition before_tag_pattern : regex :=
  [Plus Char.is_space; One (Char.eq_char Char.lt)].
(* r'<table>.*?</table>' with re.DOTALL *)
Definition table_pattern : regex :=
  chars (lit "<table>") ++ [Lazy Char.any] ++ chars (lit "</table>").
(* r'^(#{1,4})\s+(.+)$', tried at the start of the string by re.match;
   one to four '#' are one '#' and up to three more *)
Definition header_pattern : regex :=
  [One (Char.eq_char Char.hash); Opt (Char.eq_char Char.hash); Opt (Char.eq_char Char.hash);
   Opt (Char.eq_char Char.hash); Plus Char.is_space; Plus Char.not_nl; Eos].

(** ** [_clean_text] *)

Definition _clean_text (text : str) : str :=
  let text := sub_const control_pattern [] text in
  let text := sub_const blanks_pattern [Char.space] text in
  let text := sub_const blank_lines_pattern [Char.nl; Char.nl] text in
  strip text.

(** ** [_clean_table_formatting] *)

Definition clean_table_block (table_content : str) : str :=
  let table_content :=
    sub_const tag_break_pattern (lit "><") table_content in
  let table_content :=
    sub_const row_end_pattern (lit "</tr>" ++ [Char.nl]) table_content in
  let table_content :=
    sub_const after_tag_pattern (lit ">") table_content in
  let table_content :=
    sub_const before_tag_pattern (lit "<") table_content in
  table_content.

Definition _clean_table_formatting (text : str) : str :=
  sub table_pattern clean_table_block text.

(** ** [_merge_small_chunks]

    The [while i < len(sections)] loop, with the index [i] and the list
    [merged_sections] as its state.  Every turn advances [i], so
    [length sections] turns are enough ([merge_loop_fuel] below). *)

Definition small (min_chunk_size : Z) (section : str) : bool :=
  (Z.of_nat (length (strip section)) <? min_chunk_size)%Z.

Fixpoint merge_loop (fuel : nat) (sections : list str) (min_chunk_size : Z)
    (i : nat) (merged_sections : list str) : list str :=
  match fuel with
  | O => merged_sections
  | S fuel' =>
      if i <? length sections then
        let current_section := nth i sections [] in
        if small min_chunk_size current_section && (i + 1 <? length sections)
        then
          let next_section := nth (i + 1) sections [] in
          let combined_section :=
            current_section ++ [Char.nl; Char.nl] ++ next_section in
          merge_loop fuel' sections min_chunk_size (i + 2)
            (merged_sections ++ [combined_section])
        else
          merge_loop fuel' sections min_chunk_size (i + 1)
            (merged_sections ++ [current_section])
      else merged_sections
  end.

Definition _merge_small_chunks (sections : list str) (min_chunk_size : Z)
    : list str :=
  match sections with
  | [] => sections
  | _ => merge_loop (length sections) sections min_chunk_size 0 []
  end.

(** ** [_split_by_headers_manual] *)

Definition is_header (line_stripped : str) : bool :=
  matches header_pattern line_stripped.

Definition nonempty (s : str) : bool :=
  match s with [] => false | _ => true end.

(** closing the section being accumulated: joined, stripped, kept if not
    empty *)
Definition close_section (sections : list str) (current_section : list str)
    : list str :=
  match current_section with
  | [] => sections
  | _ =>
      let section_text := strip (join_nl current_section) in
      if nonempty section_text then sections ++ [section_text] else sections
  end.

(** one turn of [for i, line in enumerate(lines)] on the state
    [(sections, current_section)] *)
Definition header_step (st : list str * list str) (line : str)
    : list str * list str :=
  let (sections, current_section) := st in
  let line_stripped := strip line in
  if is_header line_stripped
  then (close_section sections current_section, [line])
  else (sections, current_section ++ [line]).

Definition _split_by_headers_manual (text : str) : list str :=
  let lines := split_nl text in
  let (sections, current_section) := fold_left header_step lines ([], []) in
  close_section sections current_section.

(** ** Documents

    A [Document] has a [page_content] and a [metadata] dictionary.  The
    content is a string on every path of the pipeline, but nothing in Python
    enforces it: [re.sub] raises [TypeError] on anything else. *)

Inductive pyval : Type :=
| PStr (s : str)
| PInt (n : Z)
| PNone.

Record Document : Type := mkDocument {
  page_content : pyval;
  metadata : gmap string pyval
}.

Inductive exn : Type :=
| TypeError.

(** [logger.error] lines, with the exception they report if any (the
    [logger.info] lines are not modelled) *)
Inductive log_line : Type :=
| LogError (message : string) (e : exn)
| LogFailure (message : string).

Inductive result (A : Type) : Type :=
| Ok (a : A)
| Raise (e : exn).
Arguments Ok {A} a.
Arguments Raise {A} e.

(** a computation that logs and may raise *)
Definition M (A : Type) : Type := list log_line * result A.

Definition ret {A} (a : A) : M A := ([], Ok a).
Definition raise {A} (e : exn) : M A := ([], Raise e).
Definition bind {A B} (m : M A) (f : A -> M B) : M B :=
  match m with
  | (l, Ok a) => let (l', r) := f a in (l ++ l', r)
  | (l, Raise e) => (l, Raise e)
  end.

(** [try: body  except Exception as e: logger.error(f"{message}: {e}"); raise] *)
Definition logged_reraise {A} (message : string) (body : M A) : M A :=
  match body with
  | (l, Raise e) => (l ++ [LogError message e], Raise e)
  | _ => body
  end.

(** ** [chunk_document] *)

(** [for i, text in enumerate(section_texts): if text.strip(): ...] *)
Fixpoint build_sections (i : nat) (section_texts : list str) : list Document :=
  match section_texts with
  | [] => []
  | text :: rest =>
      if nonempty (strip text) then
        let cleaned_text_section := _clean_table_formatting (strip text) in
        mkDocument (PStr cleaned_text_section)
                   {[ "section_index"%string := PInt (Z.of_nat i) ]}
        :: build_sections (S i) rest
      else build_sections (S i) rest
  end.

(** [len(document.page_content)]; it is reached with a string only, anything
    else has raised in [_clean_text] before *)
Definition py_len (v : pyval) : Z :=
  match v with
  | PStr s => Z.of_nat (length s)
  | _ => 0
  end.

(** [for section in sections: ...; chunk_index += 1] *)
Fixpoint build_chunks (document : Document) (chunk_index : nat)
    (sections : list Document) : list Document :=
  match sections with
  | [] => []
  | section :: rest =>
      let section_content := page_content section in
      let chunk_doc :=
        mkDocument section_content
          (<[ "section_index"%string :=
                default (PInt 0) (metadata section !! "section_index"%string) ]>
           (<[ "original_length"%string := PInt (py_len (page_content document)) ]>
            (<[ "chunk_type"%string := PStr (lit "header_section") ]>
             (<[ "chunk_index"%string := PInt (Z.of_nat chunk_index) ]>
              (metadata document))))) in
      chunk_doc :: build_chunks document (S chunk_index) rest
  end.

(** the sections of a text before and after the merge of small ones *)
Definition sections_before_merge (content : str) : list str :=
  _split_by_headers_manual (_clean_text content).

Definition sections_after_merge (min_chunk_size : Z) (content : str)
    : list str :=
  _merge_small_chunks (sections_before_merge content) min_chunk_size.

(** The body of [chunk_document].  The source calls [_merge_small_chunks]
    with its default threshold, 100; the threshold is a parameter here so
    that the fixture of the specification (20) can be run as well. *)
Definition chunk_document_with (min_chunk_size : Z) (document : Document)
    : M (list Document) :=
  logged_reraise "Error en chunking de documento"
    match page_content document with
    | PStr content =>
        let section_texts := sections_after_merge min_chunk_size content in
        let sections := build_sections 0 section_texts in
        ret (build_chunks document 0 sections)
    | _ => raise TypeError
    end.

Definition chunk_document : Document -> M (list Document) :=
  chunk_document_with 100.

(** ** [chunk_all_documents] *)

Fixpoint chunk_each (documents : list Document) (all_chunks : list Document)
    : M (list Document) :=
  match documents with
  | [] => ret all_chunks
  | document :: rest =>
      bind (chunk_document document) (fun chunks =>
      chunk_each rest (all_chunks ++ chunks))
  end.

Definition chunk_all_documents (documents : list Document)
    : M (list Document) :=
  logged_reraise "Error en chunking masivo" (chunk_each documents []).

(** ** [run_full_pipeline]

    The stages around the chunking call services outside the repository
    (blob storage, layout extraction, embeddings, search index): they are
    parameters here, each a computation that logs and may raise. *)

Section Pipeline.
Variable extract_all_documents : M (list Document).
Variable add_all_embeddings_to_documents :
  list Document -> nat -> M (list Document).
Variable index_all_documents : list Document -> nat -> M bool.
Variables embedding_batch_size indexing_batch_size : nat.

Definition run_full_pipeline : M bool :=
  logged_reraise "Error en el pipeline de documentos"
    (bind extract_all_documents (fun documents =>
     bind (chunk_all_documents documents) (fun chunks =>
     bind (add_all_embeddings_to_documents chunks embedding_batch_size)
       (fun documents_with_embeddings =>
     bind (index_all_documents documents_with_embeddings indexing_batch_size)
       (fun success =>
     if success : bool then ret success
     else ([LogFailure "Error en la indexación"], Ok success)))))).
End Pipeline.

(** ** [_is_table] and [_split_text_with_tables] *)

Definition pipe : N := 124.   (* '|' *)

(** [re.search(r, s)] as a truth value: the first position of [s] where [r]
    matches *)
Fixpoint search (r : regex) (s : str) : bool :=
  match rmatch r s with
  | Some _ => true
  | None =>
      match s with
      | [] => false
      | _ :: s' => search r s'
      end
  end.

(** [s.startswith(w)] and [w in s] *)
Fixpoint starts_with (w s : str) : bool :=
  match w, s with
  | [], _ => true
  | a :: w', b :: s' => Char.eq_char a b && starts_with w' s'
  | _ :: _, [] => false
  end.

Fixpoint contains (w s : str) : bool :=
  starts_with w s
  || match s with
     | [] => false
     | _ :: s' => contains w s'
     end.

(* r"\|.*\|" *)
Definition pipes_pattern : regex :=
  [One (Char.eq_char pipe); Star Char.not_nl; One (Char.eq_char pipe)].

Definition _is_table (block : str) : bool :=
  if search pipes_pattern block then true
  else if contains [Char.tab] block then true
  else if contains (lit "\begin{tabular}") block then true
  else false.

(** [text.split("\n\n")]: cut at the blank lines, from the left *)
Definition push (c : N) (pieces : list str) : list str :=
  match pieces with
  | piece :: rest => (c :: piece) :: rest
  | [] => [[c]]
  end.

Fixpoint split_blank (s : str) : list str :=
  match s with
  | [] => [[]]
  | c :: s' =>
      match s' with
      | d :: s'' =>
          if Char.eq_char Char.nl c && Char.eq_char Char.nl d
          then [] :: split_blank s''
          else push c (split_blank s')
      | [] => [[c]]
      end
  end.

(** one turn of [for block in blocks] on the list [chunks] *)
Definition block_step (chunks : list str) (block : str) : list str :=
  let block := strip block in
  if nonempty block then
    if _is_table block then chunks ++ [block] else chunks ++ [block]
  else chunks.

Definition _split_text_with_tables (text : str) : list str :=
  let blocks := split_blank text in
  fold_left block_step blocks [].

(** ** [IndexingService._generate_safe_document_key] *)

(** [s.replace(old, new)] for strings of one character *)
Definition replace_char (old new : N) (s : str) : str :=
  map (fun c => if Char.eq_char old c then new else c) s.

(** [[a-zA-Z0-9_\-=]], the class that the pattern negates *)
Definition key_char (c : N) : bool :=
  Char.in_range 97 122 c || Char.in_range 65 90 c || Char.in_range 48 57 c
  || Char.eq_char 95 c || Char.eq_char 45 c || Char.eq_char 61 c.

(* r'[^a-zA-Z0-9_\-=]' *)
Definition unsafe_pattern : regex := [One (fun c => negb (key_char c))].

Definition underscore : N := 95.   (* '_' *)

(** [f"{n}"] for an [int] *)
Definition format_int (n : Z) : str :=
  lit (DecimalString.NilZero.string_of_int (Z.to_int n)).

Definition safe_source_name (source_name : str) : str :=
  let safe_source_name :=
    replace_char 32 underscore
      (replace_char 45 underscore
         (replace_char 46 underscore source_name)) in
  sub_const unsafe_pattern [underscore] safe_source_name.

Definition _generate_safe_document_key
    (source_name : str) (index chunk_index : Z) : str :=
  safe_source_name source_name
  ++ [underscore] ++ format_int index
  ++ [underscore] ++ format_int chunk_index.

(** ** [EmbeddingService]

    The embedding of a text is a list of floats, of which nothing is
    computed here: [F] stands for the floats.  The call of the service,
    [client.embeddings.create(input=batch_texts, ...)] followed by the
    reading of [response.data], is a parameter: it is given the number of
    the batch, so that its answers may differ from call to call, and gives
    [None] when it raises.  The log lines of this stage are not modelled.

    [range(0, total_texts, batch_size)] raises for a step of 0 and is empty
    for a negative one: the batch size is taken positive. *)

Section Embeddings.
Variable F : Type.
Variable create : nat -> list pyval -> option (list (list F)).

(** the [for i in range(0, total_texts, batch_size)] loop, with the index
    [i] and the list [all_embeddings] as its state *)
Fixpoint embed_loop (fuel : nat) (texts : list pyval) (batch_size : positive)
    (i : nat) (all_embeddings : list (option (list F)))
    : list (option (list F)) :=
  match fuel with
  | O => all_embeddings
  | S fuel' =>
      if i <? length texts then
        let batch_texts := firstn (Pos.to_nat batch_size) (skipn i texts) in
        let batch_num := i / Pos.to_nat batch_size + 1 in
        match create batch_num batch_texts with
        | Some batch_embeddings =>
            embed_loop fuel' texts batch_size (i + Pos.to_nat batch_size)
              (all_embeddings ++ map Some batch_embeddings)
        | None =>
            embed_loop fuel' texts batch_size (i + Pos.to_nat batch_size)
              (all_embeddings ++ repeat None (length batch_texts))
        end
      else all_embeddings
  end.

Definition generate_embeddings_batch (texts : list pyval)
    (batch_size : positive) : list (option (list F)) :=
  embed_loop (length texts) texts batch_size 0 [].

(** the values of the metadata of a document with its embedding *)
Inductive meta_value : Type :=
| Plain (v : pyval)
| Vector (embedding : list F).

Record EmbeddedDocument : Type := mkEmbedded {
  embedded_content : pyval;
  embedded_metadata : gmap string meta_value
}.

(** [for i, (doc, embedding) in enumerate(zip(documents, embeddings))] *)
Fixpoint attach (documents : list Document)
    (embeddings : list (option (list F))) : list EmbeddedDocument :=
  match documents, embeddings with
  | doc :: documents', embedding :: embeddings' =>
      match embedding with
      | Some embedding =>
          mkEmbedded (page_content doc)
            (<[ "embedding_dimension"%string :=
                  Plain (PInt (Z.of_nat (length embedding))) ]>
             (<[ "embedding"%string := Vector embedding ]>
              (Plain <$> metadata doc)))
          :: attach documents' embeddings'
      | None => attach documents' embeddings'
      end
  | _, _ => []
  end.

Definition add_all_embeddings_to_documents (documents : list Document)
    (batch_size : positive) : list EmbeddedDocument :=
  let texts := map page_content documents in
  let embeddings := generate_embeddings_batch texts batch_size in
  attach documents embeddings.
End Embeddings.

Arguments Plain {F} v.
Arguments Vector {F} embedding.
Arguments embedded_content {F} _.
Arguments embedded_metadata {F} _.

(** * The vocabulary of the properties *)

(** ** Strings *)

(** a string of white space only *)
Definition blank (s : str) : bool := forallb Char.is_space s.

(** a section that [strip] does not empty *)
Definition nonblank (s : str) : Prop := nonempty (strip s) = true.

(** a string without newline *)
Definition no_nl (s : str) : bool := forallb Char.not_nl s.

(** the first line of a text, [text.split('\n')[0]] *)
Definition first_line (s : str) : str := hd [] (split_nl s).

(** a string that is empty or ends with a character that is not white space *)
Definition solid_end (s : str) : Prop :=
  s = [] \/ exists s' c, s = s' ++ [c] /\ Char.is_space c = false.

(** ** The merge *)

(** The pass as the specification words it: look at the current section and
    the one after it; merge and move on by two, or keep and move on by one. *)
Fixpoint merge_pass (min_chunk_size : Z) (sections : list str) : list str :=
  match sections with
  | [] => []
  | current :: rest =>
      match rest with
      | next :: rest' =>
          if small min_chunk_size current
          then (current ++ [Char.nl; Char.nl] ++ next)
                 :: merge_pass min_chunk_size rest'
          else current :: merge_pass min_chunk_size rest
      | [] => [current]
      end
  end.

(** ** The matcher *)

(** a continuation that consumes no more than what is left *)
Definition bounded (k : str -> option nat) : Prop :=
  forall s n, k s = Some n -> (n <= length s)%nat.

(** [k'] succeeds after [t] is appended wherever [k] succeeds, on strings
    without newline *)
Definition extends (t : str) (k k' : str -> option nat) : Prop :=
  forall s n, no_nl s = true -> k s = Some n -> k' (s ++ t) <> None.

(** ** The normal form of [_clean_text] *)

(** the position of the last newline of a string *)
Fixpoint last_nl (w : str) : option nat :=
  match w with
  | [] => None
  | c :: w' =>
      match last_nl w' with
      | Some j => Some (S j)
      | None => if Char.eq_char Char.nl c then Some O else None
      end
  end.

Abbreviation sub_control := (sub_const control_pattern []).
Abbreviation sub_blanks := (sub_const blanks_pattern [Char.space]).
Abbreviation sub_blank_lines :=
  (sub_const blank_lines_pattern [Char.nl; Char.nl]).

(** no character of the class that [_clean_text] deletes *)
Definition no_control (s : str) : Prop :=
  forall c, In c s -> Char.is_control c = false.

Definition starts_blank (s : str) : bool :=
  match s with
  | c :: _ => Char.is_blank c
  | [] => false
  end.

(** every blank is a space, and the character after it is not a blank *)
Fixpoint spaced (s : str) : bool :=
  match s with
  | [] => true
  | c :: u =>
      (negb (Char.is_blank c)
       || (Char.eq_char Char.space c && negb (starts_blank u)))
      && spaced u
  end.

(** after a newline, the white space that follows has no newline, or has
    one only, at once *)
Definition gap_ok (u : str) : bool :=
  match last_nl (take_while Char.is_space u) with
  | Some (S _) => false
  | _ => true
  end.

(** every newline is followed by such white space *)
Fixpoint settled (s : str) : bool :=
  match s with
  | [] => true
  | c :: u => (negb (Char.eq_char Char.nl c) || gap_ok u) && settled u
  end.

(** what [_clean_text] establishes, and leaves as it is *)
Definition normal (s : str) : Prop :=
  no_control s /\ spaced s = true /\ settled s = true /\ strip s = s.

(** ** Sections *)

(** a section has a heading when its first line is one, as it stands and
    stripped *)
Definition headed (section : str) : Prop :=
  is_header (first_line section) = true
  /\ is_header (strip (first_line section)) = true.

(** the lines being accumulated start with a heading line *)
Definition opened (current_section : list str) : Prop :=
  exists h rest,
    current_section = h :: rest
    /\ is_header (strip h) = true /\ no_nl h = true.

(** the invariant of the loop over the lines: the sections emitted after
    the first have a heading, and once a section has been emitted the lines
    being accumulated start with one *)
Definition segment_invariant (st : list str * list str) : Prop :=
  Forall headed (tl (fst st)) /\ (fst st = [] \/ opened (snd st)).

(** ** Documents and scenarios *)

(** the text of the specification's end-to-end scenario *)
Definition fixture : str :=
  lit "Intro line." ++ [Char.nl; Char.nl]
  ++ lit "# Section One" ++ [Char.nl] ++ lit "Short." ++ [Char.nl; Char.nl]
  ++ lit "## Sub" ++ [Char.nl]
  ++ lit "This is a longer paragraph exceeding the minimum character threshold easily.".

Definition fixture_document : Document := mkDocument (PStr fixture) ∅.

(** The reading of the specification: the section index of a chunk is the
    position, before the merge, of the section the chunk was made of, alone
    or merged with the section after it. *)
Definition section_index_before_merge (document : Document) : Prop :=
  forall content log chunks chunk,
    page_content document = PStr content ->
    chunk_document document = (log, Ok chunks) ->
    In chunk chunks ->
    exists j section tail,
      metadata chunk !! "section_index"%string = Some (PInt (Z.of_nat j))
      /\ nth_error (sections_before_merge content) j = Some section
      /\ (tail = []
          \/ exists next,
               nth_error (sections_before_merge content) (S j) = Some next
               /\ tail = [Char.nl; Char.nl] ++ next)
      /\ page_content chunk
         = PStr (_clean_table_formatting (strip (section ++ tail))).

(** three short sections: the first two are merged, the third moves up *)
Definition three_sections : str :=
  lit "# A" ++ [Char.nl] ++ lit "x" ++ [Char.nl; Char.nl]
  ++ lit "# B" ++ [Char.nl] ++ lit "y" ++ [Char.nl; Char.nl]
  ++ lit "# C" ++ [Char.nl] ++ lit "z".

Definition three_sections_document : Document :=
  mkDocument (PStr three_sections) ∅.

Definition intro_line : str := lit "Intro line.".
Definition section_one : str :=
  lit "# Section One" ++ [Char.nl] ++ lit "Short.".
Definition sub_section : str :=
  lit "## Sub" ++ [Char.nl]
  ++ lit "This is a longer paragraph exceeding the minimum character threshold easily.".

(** The scenario as the specification has it: two chunks, the first being
    the heading section merged with the subsection after it. *)
Definition scenario_as_specified (md : gmap string pyval) : Prop :=
  exists log c0 c1,
    chunk_document_with 20 (mkDocument (PStr fixture) md) = (log, Ok [c0; c1])
    /\ page_content c0
       = PStr (section_one ++ [Char.nl; Char.nl] ++ sub_section).

(** The reading of the specification: when a document of the batch raises,
    the batch still returns, with the chunks of the documents after it. *)
Definition batch_continues (documents : list Document) : Prop :=
  forall before d after l e,
    documents = before ++ d :: after ->
    chunk_document d = (l, Raise e) ->
    exists log chunks,
      chunk_all_documents documents = (log, Ok chunks)
      /\ forall d' l' cs c,
           In d' after -> chunk_document d' = (l', Ok cs) ->
           In c cs -> In c chunks.

(** the exception of the first document of the batch that raises *)
Fixpoint first_raise (documents : list Document) : option exn :=
  match documents with
  | [] => None
  | document :: rest =>
      match chunk_document document with
      | (_, Raise e) => Some e
      | (_, Ok _) => first_raise rest
      end
  end.

(** a document whose content is not a string *)
Definition broken_document : Document := mkDocument PNone ∅.

(** ** Tables *)

Module Table.

Definition open_tag : str := lit "<table>".
Definition close_tag : str := lit "</table>".

(** a text that starts with a span: [<table>], and a [</table>] further on;
    these are the texts at the head of which [<table>.*?</table>] matches *)
Definition starts_span (s : str) : Prop :=
  exists body rest, s = open_tag ++ body ++ close_tag ++ rest.

(** a span: a text from [<table>] to the first [</table>] after it, that
    is, with no [</table>] in between *)
Definition is_span (t : str) : Prop :=
  exists body,
    t = open_tag ++ body ++ close_tag
    /\ forall a b, body <> a ++ close_tag ++ b.

(** a text with a span somewhere in it *)
Definition has_span (s : str) : Prop :=
  exists a body b, s = a ++ open_tag ++ body ++ close_tag ++ b.

(** the text [o], with the text [rest] after it, lies outside the spans:
    no span starts at a character of [o] *)
Definition outside (o rest : str) : Prop :=
  forall a b, o = a ++ b -> b <> [] -> ~ starts_span (b ++ rest).

(** a text cut at its spans: the text before the first span, then each
    span with the text after it, up to the next span *)
Definition raw (o0 : str) (segments : list (str * str)) : str :=
  o0 ++ flat_map (fun seg => fst seg ++ snd seg) segments.

Definition cleaned (o0 : str) (segments : list (str * str)) : str :=
  o0 ++ flat_map (fun seg => clean_table_block (fst seg) ++ snd seg) segments.

Fixpoint cut_segments (segments : list (str * str)) : Prop :=
  match segments with
  | [] => True
  | seg :: rest =>
      is_span (fst seg)
      /\ outside (snd seg) (raw [] rest)
      /\ cut_segments rest
  end.

Definition cut_at_spans (o0 : str) (segments : list (str * str)) : Prop :=
  outside o0 (raw [] segments) /\ cut_segments segments.

(** the ends of a text, from the whole text to the empty one *)
Fixpoint tails (s : str) : list str :=
  match s with
  | [] => [[]]
  | _ :: s' => s :: tails s'
  end.

End Table.

Definition starts_space (s : str) : bool :=
  match s with
  | c :: _ => Char.is_space c
  | [] => false
  end.

(** no [>] is followed by white space *)
Fixpoint tight (s : str) : bool :=
  match s with
  | [] => true
  | c :: u => (negb (Char.eq_char Char.gt c) || negb (starts_space u))
              && tight u
  end.

Abbreviation sub_after := (sub_const after_tag_pattern (lit ">")).
Abbreviation sub_before := (sub_const before_tag_pattern (lit "<")).

(** a table of two rows, one per line, and a row followed by text *)
Definition two_rows : str :=
  lit "<table><tr><td>a</td></tr>" ++ [Char.nl]
  ++ lit "<tr><td>b</td></tr>" ++ [Char.nl] ++ lit "</table>".

Definition row_and_text : str :=
  lit "<table><tr><td>a</td></tr> " ++ [Char.nl] ++ lit " note</table>".

(** ** What a pattern denotes *)

(** the texts a pattern can match, item by item ([$] takes no character) *)
Fixpoint denotes (r : regex) (t : str) : Prop :=
  match r with
  | [] => t = []
  | it :: r' =>
      match it with
      | One p => exists c t', t = c :: t' /\ p c = true /\ denotes r' t'
      | Opt p =>
          denotes r' t
          \/ exists c t', t = c :: t' /\ p c = true /\ denotes r' t'
      | Star p | Lazy p =>
          exists w t', t = w ++ t' /\ forallb p w = true /\ denotes r' t'
      | Plus p =>
          exists c w t',
            t = c :: w ++ t' /\ p c = true /\ forallb p w = true
            /\ denotes r' t'
      | Eos => denotes r' t
      end
  end.

(** a continuation whose matches are in [D] *)
Definition sound (D : str -> Prop) (k : str -> option nat) : Prop :=
  forall s n, k s = Some n -> D (firstn n s).

(** ** Visible characters *)

(** a character that is not white space *)
Definition solid (c : N) : bool := negb (Char.is_space c).

(** a character that is neither white space nor deleted by [_clean_text] *)
Definition visible (c : N) : bool :=
  negb (Char.is_space c) && negb (Char.is_control c).

(** ['\n\n'.join(sections)] *)
Fixpoint join_blank (sections : list str) : str :=
  match sections with
  | [] => []
  | [s] => s
  | s :: rest => s ++ [Char.nl; Char.nl] ++ join_blank rest
  end.

(** the text of a chunk *)
Definition text_of (chunk : Document) : str :=
  match page_content chunk with
  | PStr s => s
  | _ => []
  end.

(** no white space before a [<] *)
Fixpoint snug (s : str) : bool :=
  match s with
  | [] => true
  | c :: u =>
      (negb (Char.is_space c)
       || negb (match u with d :: _ => Char.eq_char Char.lt d | [] => false end))
      && snug u
  end.

(** the number of heading lines of a list of lines *)
Definition count_headers (lines : list str) : nat :=
  length (List.filter (fun line => is_header (strip line)) lines).

(** a stripped text that is not empty *)
Definition trimmed (s : str) : Prop := s <> [] /\ strip s = s.

(** the chunks [chunk_document] returns for a document, none if it raises *)
Definition document_chunks (document : Document) : list Document :=
  match chunk_document document with
  | (_, Ok chunks) => chunks
  | (_, Raise _) => []
  end.

(** a document with a source, and its second chunk *)
Definition sourced_document : Document :=
  mkDocument (PStr three_sections) {[ "source"%string := PStr (lit "a.pdf") ]}.

Definition sourced_chunk : Document :=
  mkDocument (PStr (lit "# C" ++ [Char.nl] ++ lit "z"))
    (<[ "section_index"%string := PInt 1 ]>
       (<[ "original_length"%string := PInt 19 ]>
          (<[ "chunk_type"%string := PStr (lit "header_section") ]>
             (<[ "chunk_index"%string := PInt 1 ]>
                {[ "source"%string := PStr (lit "a.pdf") ]})))).

(** what [_generate_safe_document_key] makes of a character of the source
    name: kept if it is a letter, a digit, [_] or [=], else [_] *)
Definition sanitize_char (c : N) : N :=
  if key_char c && negb (Char.eq_char 45 c) then c else underscore.

(** the characters of a formatted number *)
Definition digit_or_minus (c : N) : bool :=
  Char.in_range 48 57 c || Char.eq_char 45 c.

(** the service answers a batch with one embedding for each text *)
Definition aligned (F : Type)
    (create : nat -> list pyval -> option (list (list F))) : Prop :=
  forall n batch answers,
    create n batch = Some answers -> length answers = length batch.

(** * Properties *)

(** ** Runs of characters *)

Section RunFacts.
Context {A : Type}.
Variable p : A -> bool.

Lemma take_drop_while (l : list A) :
  take_while p l ++ drop_while p l = l.
Proof.
  induction l as [|x l IH]; simpl; [reflexivity|].
  destruct (p x); simpl; [now rewrite IH | reflexivity].
Qed.

Lemma take_while_all (l : list A) : forallb p (take_while p l) = true.
Proof.
  induction l as [|x l IH]; simpl; [reflexivity|].
  destruct (p x) eqn:E; simpl; [now rewrite E | reflexivity].
Qed.

Lemma drop_while_head (l : list A) x l' :
  drop_while p l = x :: l' -> p x = false.
Proof.
  induction l as [|y l IH]; simpl; [discriminate|].
  destruct (p y) eqn:E; [exact IH|].
  intros H; injection H as -> _; exact E.
Qed.

Lemma drop_while_nil (l : list A) :
  drop_while p l = [] <-> forallb p l = true.
Proof.
  induction l as [|x l IH]; simpl; [tauto|].
  destruct (p x); simpl; [exact IH | split; discriminate].
Qed.

Lemma drop_while_all_app (a b : list A) :
  forallb p a = true -> drop_while p (a ++ b) = drop_while p b.
Proof.
  induction a as [|x a IH]; simpl; [reflexivity|].
  destruct (p x); simpl; [exact IH | discriminate].
Qed.

Lemma drop_while_stop (a b : list A) :
  drop_while p a <> [] -> drop_while p (a ++ b) = drop_while p a ++ b.
Proof.
  induction a as [|x a IH]; simpl; [congruence|].
  destruct (p x); [exact IH | reflexivity].
Qed.

Lemma take_while_stop (a b : list A) :
  drop_while p a <> [] -> take_while p (a ++ b) = take_while p a.
Proof.
  induction a as [|x a IH]; simpl; [congruence|].
  destruct (p x); [|reflexivity].
  intros H. now rewrite IH.
Qed.

Lemma drop_while_skipn (l : list A) :
  drop_while p l = skipn (length (take_while p l)) l.
Proof.
  induction l as [|x l IH]; simpl; [reflexivity|].
  destruct (p x); simpl; [exact IH | reflexivity].
Qed.
End RunFacts.

(** ** [strip] *)

Lemma blank_app a b : blank (a ++ b) = blank a && blank b.
Proof. apply forallb_app. Qed.

Lemma blank_rev s : blank (rev s) = blank s.
Proof.
  unfold blank. induction s as [|c s IH]; simpl; [reflexivity|].
  rewrite forallb_app, IH. simpl. rewrite andb_true_r. apply andb_comm.
Qed.

Lemma rstrip_nil s : rstrip s = [] <-> blank s = true.
Proof.
  unfold rstrip. rewrite <- blank_rev. unfold blank.
  rewrite <- (drop_while_nil Char.is_space (rev s)).
  split; intros H.
  - apply (f_equal (@rev N)) in H. now rewrite rev_involutive in H.
  - now rewrite H.
Qed.

(** [lstrip] cuts a blank prefix, [rstrip] a blank suffix *)
Lemma lstrip_split s : exists a, s = a ++ lstrip s /\ blank a = true.
Proof.
  exists (take_while Char.is_space s). split.
  - symmetry. apply take_drop_while.
  - apply take_while_all.
Qed.

Lemma rstrip_split s : exists b, s = rstrip s ++ b /\ blank b = true.
Proof.
  destruct (lstrip_split (rev s)) as (a & E & Ha).
  exists (rev a). split.
  - unfold rstrip. rewrite <- rev_app_distr. fold (lstrip (rev s)).
    rewrite <- E. now rewrite rev_involutive.
  - now rewrite blank_rev.
Qed.

Lemma lstrip_app_blank a s : blank a = true -> lstrip (a ++ s) = lstrip s.
Proof. apply drop_while_all_app. Qed.

Lemma rstrip_app_blank s b : blank b = true -> rstrip (s ++ b) = rstrip s.
Proof.
  intros H. unfold rstrip. rewrite rev_app_distr.
  rewrite drop_while_all_app; [reflexivity|].
  fold (blank (rev b)). now rewrite blank_rev.
Qed.

Lemma lstrip_app s t : lstrip s <> [] -> lstrip (s ++ t) = lstrip s ++ t.
Proof. apply drop_while_stop. Qed.

Lemma rstrip_app s t : rstrip t <> [] -> rstrip (s ++ t) = s ++ rstrip t.
Proof.
  intros H. unfold rstrip in *. rewrite rev_app_distr.
  rewrite drop_while_stop.
  - now rewrite rev_app_distr, rev_involutive.
  - intros E. apply H. now rewrite E.
Qed.

Lemma lstrip_head s c s' : lstrip s = c :: s' -> Char.is_space c = false.
Proof. apply drop_while_head. Qed.

Lemma lstrip_fixed c s : Char.is_space c = false -> lstrip (c :: s) = c :: s.
Proof. intros H. unfold lstrip. simpl. now rewrite H. Qed.

Lemma rstrip_last s c : Char.is_space c = false -> rstrip (s ++ [c]) = s ++ [c].
Proof.
  intros H. unfold rstrip. rewrite rev_app_distr. simpl. rewrite H.
  simpl. now rewrite rev_involutive.
Qed.

(** a stripped string that is not empty ends with a character that is not
    white space *)
Lemma rstrip_ends s :
  rstrip s <> [] ->
  exists s' c, rstrip s = s' ++ [c] /\ Char.is_space c = false.
Proof.
  unfold rstrip. intros H.
  destruct (drop_while Char.is_space (rev s)) as [|c t] eqn:E; [easy|].
  exists (rev t), c. split; [reflexivity|]. eapply drop_while_head, E.
Qed.

Lemma rstrip_idem s : rstrip (rstrip s) = rstrip s.
Proof.
  destruct (decide (rstrip s = [])) as [E|E]; [now rewrite E|].
  destruct (rstrip_ends s E) as (s' & c & -> & Hc). now apply rstrip_last.
Qed.

Lemma lstrip_idem s : lstrip (lstrip s) = lstrip s.
Proof.
  destruct (lstrip s) as [|c s'] eqn:E; [reflexivity|].
  apply lstrip_fixed. eapply lstrip_head, E.
Qed.

(** the two ends can be stripped in either order *)
Lemma rstrip_lstrip s : rstrip (lstrip s) = lstrip (rstrip s).
Proof.
  destruct (lstrip_split s) as (a & Ea & Ha).
  destruct (blank (lstrip s)) eqn:Hb.
  - assert (Hs : blank s = true) by (rewrite Ea, blank_app, Ha, Hb; reflexivity).
    apply rstrip_nil in Hb. apply rstrip_nil in Hs. rewrite Hb, Hs. reflexivity.
  - assert (Hr : rstrip (lstrip s) <> []).
    { intros E. apply rstrip_nil in E. congruence. }
    rewrite Ea at 2. rewrite rstrip_app by exact Hr.
    rewrite lstrip_app_blank by exact Ha.
    destruct (rstrip (lstrip s)) as [|c t] eqn:E; [easy|].
    symmetry. apply lstrip_fixed.
    destruct (rstrip_split (lstrip s)) as (b & Eb & _).
    rewrite E in Eb. simpl in Eb. eapply lstrip_head, Eb.
Qed.

Lemma strip_idem s : strip (strip s) = strip s.
Proof.
  unfold strip. rewrite (rstrip_lstrip (rstrip (lstrip s))).
  rewrite rstrip_idem. rewrite <- rstrip_lstrip. now rewrite lstrip_idem.
Qed.

Lemma strip_nil s : strip s = [] <-> blank s = true.
Proof.
  unfold strip. rewrite rstrip_nil.
  destruct (lstrip_split s) as (a & Ea & Ha).
  rewrite Ea at 2. rewrite blank_app, Ha. simpl. reflexivity.
Qed.

(** [strip] cuts a blank prefix and a blank suffix *)
Lemma strip_split s :
  exists a b, s = a ++ strip s ++ b /\ blank a = true /\ blank b = true.
Proof.
  destruct (lstrip_split s) as (a & Ea & Ha).
  destruct (rstrip_split (lstrip s)) as (b & Eb & Hb).
  exists a, b. unfold strip. rewrite <- Eb. auto.
Qed.

Lemma strip_length s : (length (strip s) <= length s)%nat.
Proof.
  destruct (strip_split s) as (a & b & E & _).
  rewrite E at 2. rewrite !length_app. lia.
Qed.

Lemma nonempty_true s : nonempty s = true <-> s <> [].
Proof. destruct s; simpl; split; congruence. Qed.

Lemma nonempty_strip s : nonempty (strip s) = negb (blank s).
Proof.
  destruct (blank s) eqn:E.
  - apply strip_nil in E. now rewrite E.
  - simpl. apply nonempty_true. intros H. apply strip_nil in H. congruence.
Qed.

(** ** The merge of small sections *)

Lemma skipn_nth {A} (d : A) (l : list A) i :
  (i < length l)%nat -> skipn i l = nth i l d :: skipn (S i) l.
Proof.
  revert i. induction l as [|x l IH]; intros i H; simpl in H; [lia|].
  destruct i as [|i]; [reflexivity|]. simpl. apply IH. lia.
Qed.

(** the loop from index [i] appends the pass over the sections from [i] on *)
Lemma merge_loop_pass fuel sections min_chunk_size i merged :
  (length sections - i <= fuel)%nat ->
  merge_loop fuel sections min_chunk_size i merged
  = merged ++ merge_pass min_chunk_size (skipn i sections).
Proof.
  revert i merged. induction fuel as [|fuel IH]; intros i merged Hfuel.
  - simpl. rewrite skipn_all2 by lia. simpl. now rewrite app_nil_r.
  - simpl. destruct (i <? length sections)%nat eqn:Hi.
    + apply Nat.ltb_lt in Hi.
      rewrite (skipn_nth [] sections i Hi).
      destruct (i + 1 <? length sections)%nat eqn:Hi1.
      * apply Nat.ltb_lt in Hi1. replace (S i) with (i + 1)%nat by lia.
        rewrite (skipn_nth [] sections (i + 1)) by exact Hi1.
        rewrite andb_true_r. cbn [merge_pass].
        destruct (small min_chunk_size (nth i sections [])).
        -- rewrite IH by lia. rewrite <- app_assoc.
           replace (S (i + 1)) with (i + 2)%nat by lia. reflexivity.
        -- rewrite IH by lia. rewrite <- app_assoc.
           rewrite (skipn_nth [] sections (i + 1)) by exact Hi1. reflexivity.
      * apply Nat.ltb_ge in Hi1. rewrite andb_false_r.
        rewrite IH by lia. rewrite <- app_assoc.
        replace (i + 1)%nat with (S i) by lia.
        rewrite skipn_all2 by lia. reflexivity.
    + apply Nat.ltb_ge in Hi. rewrite skipn_all2 by lia.
      simpl. now rewrite app_nil_r.
Qed.

(** more turns than sections change nothing: the loop has ended by then *)
Lemma merge_loop_fuel fuel sections min_chunk_size :
  (length sections <= fuel)%nat ->
  merge_loop fuel sections min_chunk_size 0 []
  = merge_loop (length sections) sections min_chunk_size 0 [].
Proof.
  intros H. rewrite !merge_loop_pass by lia. reflexivity.
Qed.

Lemma merge_small_chunks_pass sections min_chunk_size :
  _merge_small_chunks sections min_chunk_size
  = merge_pass min_chunk_size sections.
Proof.
  unfold _merge_small_chunks. destruct sections as [|s l]; [reflexivity|].
  rewrite merge_loop_pass by lia. reflexivity.
Qed.

(** C3: [_merge_small_chunks] is the single left-to-right pass of the
    specification: a small section with a successor is emitted joined to it
    by a blank line and both are passed over, any other section is emitted
    as it is, and a last section without successor is emitted even if small.
    For three sections of 10, 10 and 200 characters and a threshold of 100
    the result is the merge of the first two followed by the third. *)
Theorem merge_small_chunks_one_pass :
  (forall sections min_chunk_size,
      _merge_small_chunks sections min_chunk_size
      = merge_pass min_chunk_size sections)
  /\ (forall s0 s1 s2 : str,
         length s0 = 10%nat -> length s1 = 10%nat -> length s2 = 200%nat ->
         _merge_small_chunks [s0; s1; s2] 100
         = [s0 ++ [Char.nl; Char.nl] ++ s1; s2]).
Proof.
  split; [exact merge_small_chunks_pass|].
  intros s0 s1 s2 H0 H1 H2. rewrite merge_small_chunks_pass.
  cbn [merge_pass]. unfold small.
  pose proof (strip_length s0) as Hs.
  destruct (Z.ltb_spec (Z.of_nat (length (strip s0))) 100) as [_|Hge];
    [reflexivity | lia].
Qed.

Lemma merge_small_chunks_one_pass_witness :
  _merge_small_chunks
    [repeat 97%N 10; repeat 98%N 10; repeat 99%N 200] 100
  = [repeat 97%N 10 ++ [Char.nl; Char.nl] ++ repeat 98%N 10;
     repeat 99%N 200].
Proof.
  apply (proj2 merge_small_chunks_one_pass); reflexivity.
Defined.

(** ** The matcher and the scan *)

Module ReFacts.

Lemma greedy_bounded p k : bounded k -> bounded (greedy p k).
Proof.
  intros Hk s. induction s as [|c s IH]; intros n; simpl.
  - apply Hk.
  - destruct (p c); [|apply (Hk (c :: s))].
    destruct (greedy p k s) as [m|] eqn:E.
    + intros H; injection H as <-. specialize (IH m eq_refl). lia.
    + apply (Hk (c :: s)).
Qed.

Lemma lazy_bounded p k : bounded k -> bounded (lazy p k).
Proof.
  intros Hk s. induction s as [|c s IH]; intros n; simpl.
  - destruct (k []) eqn:E; [|discriminate].
    intros H; injection H as <-. now apply Hk in E.
  - destruct (k (c :: s)) eqn:E.
    + intros H; injection H as <-. now apply Hk in E.
    + destruct (p c); [|discriminate].
      destruct (lazy p k s) as [m|]; [|discriminate].
      intros H; injection H as <-. specialize (IH m eq_refl). lia.
Qed.

Lemma one_bounded p k : bounded k -> bounded (one p k).
Proof.
  intros Hk [|c s] n; simpl; [discriminate|].
  destruct (p c); [|discriminate].
  destruct (k s) as [m|] eqn:E; [|discriminate].
  intros H; injection H as <-. apply Hk in E. lia.
Qed.

Lemma opt_bounded p k : bounded k -> bounded (opt p k).
Proof.
  intros Hk [|c s] n; simpl; [apply Hk|].
  destruct (p c); [|apply (Hk (c :: s))].
  destruct (k s) as [m|] eqn:E; [|apply (Hk (c :: s))].
  intros H; injection H as <-. apply Hk in E. lia.
Qed.

Lemma eos_bounded k : bounded k -> bounded (eos k).
Proof.
  intros Hk [|c [|d s]] n; simpl; [apply Hk| |discriminate].
  destruct (Char.eq_char Char.nl c); [apply (Hk [c])|discriminate].
Qed.

(** a match lies within the string *)
Lemma rmatch_bounded r : bounded (rmatch r).
Proof.
  induction r as [|it r IH]; simpl.
  - intros s n H; injection H as <-. lia.
  - destruct it; auto using one_bounded, opt_bounded, greedy_bounded,
      lazy_bounded, eos_bounded.
Qed.

Section Scan.
Variable r : regex.
Variable repl : str -> str.

Lemma scan_skip s n : scan r repl n s = scan r repl 0 (skipn n s).
Proof.
  revert n. induction s as [|c s IH]; intros [|n]; try reflexivity.
  simpl. apply IH.
Qed.

Lemma sub_copy c s :
  rmatch r (c :: s) = None \/ rmatch r (c :: s) = Some O ->
  sub r repl (c :: s) = c :: sub r repl s.
Proof. unfold sub. simpl. intros [-> | ->]; reflexivity. Qed.

Lemma sub_replace s n :
  rmatch r s = Some (S n) ->
  sub r repl s = repl (firstn (S n) s) ++ sub r repl (skipn (S n) s).
Proof.
  intros H. pose proof (rmatch_bounded r s _ H) as Hn.
  destruct s as [|c s]; [simpl in Hn; lia|].
  unfold sub. cbn [scan]. rewrite H. now rewrite scan_skip.
Qed.

(** induction along the scan *)
Lemma sub_ind (P : str -> Prop) :
  P [] ->
  (forall c s,
      rmatch r (c :: s) = None \/ rmatch r (c :: s) = Some O ->
      P s -> P (c :: s)) ->
  (forall s n,
      rmatch r s = Some (S n) -> P (skipn (S n) s) -> P s) ->
  forall s, P s.
Proof.
  intros Hnil Hcopy Hrepl s.
  remember (length s) as m eqn:Hm. revert s Hm.
  induction m as [m IH] using lt_wf_ind. intros s ->.
  destruct s as [|c s]; [exact Hnil|].
  destruct (rmatch r (c :: s)) as [[|n]|] eqn:E.
  - apply Hcopy; [now right|]. apply (IH (length s)); simpl; auto.
  - apply (Hrepl _ n E). eapply IH; [|reflexivity].
    simpl. pose proof (length_skipn n s). lia.
  - apply Hcopy; [now left|]. apply (IH (length s)); simpl; auto.
Qed.

(** where every match is replaced by itself, nothing changes *)
Lemma sub_fixed s :
  (forall a t n,
      s = a ++ t -> rmatch r t = Some (S n) ->
      repl (firstn (S n) t) = firstn (S n) t) ->
  sub r repl s = s.
Proof.
  induction s as [|c s E IH|s n E IH] using sub_ind; intros H.
  - reflexivity.
  - rewrite sub_copy by exact E. f_equal. apply IH.
    intros a t n -> Ht. apply (H (c :: a) t n); [reflexivity|exact Ht].
  - rewrite (sub_replace s n E). rewrite (H [] s n eq_refl E).
    rewrite IH; [apply firstn_skipn|].
    intros a t m Hs Ht. apply (H (firstn (S n) s ++ a) t m); [|exact Ht].
    rewrite <- app_assoc, <- Hs. symmetry. apply firstn_skipn.
Qed.
End Scan.

(** with a replacement string, the result is made of characters of the
    input and of the replacement *)
Lemma sub_const_in r by_ s c :
  In c (sub_const r by_ s) -> In c s \/ In c by_.
Proof.
  unfold sub_const.
  induction s as [|d s E IH|s n E IH] using (sub_ind r).
  - simpl. tauto.
  - rewrite sub_copy by exact E. simpl. tauto.
  - rewrite (sub_replace _ _ s n E). rewrite in_app_iff.
    intros [H|H]; [now right|]. destruct (IH H) as [H'|H']; [|now right].
    left. rewrite <- (firstn_skipn (S n) s). apply in_app_iff. now right.
Qed.

End ReFacts.

Import ReFacts.

(** ** Facts on the character classes *)

#[local] Arguments Char.is_space : simpl never.
#[local] Arguments Char.is_control : simpl never.
#[local] Arguments Char.is_blank : simpl never.
#[local] Arguments Char.eq_char : simpl never.
#[local] Arguments Char.not_nl : simpl never.

Lemma eq_char_true a c : Char.eq_char a c = true <-> c = a.
Proof. unfold Char.eq_char. apply N.eqb_eq. Qed.

Lemma eq_char_refl a : Char.eq_char a a = true.
Proof. now apply eq_char_true. Qed.

Lemma nl_is_space c : Char.eq_char Char.nl c = true -> Char.is_space c = true.
Proof. intros H. apply eq_char_true in H. now subst. Qed.

Lemma not_space_not_nl c :
  Char.is_space c = false -> Char.eq_char Char.nl c = false.
Proof.
  intros H. destruct (Char.eq_char Char.nl c) eqn:E; [|reflexivity].
  apply nl_is_space in E. congruence.
Qed.

Lemma is_control_ranges (c : N) :
  Char.is_control c = false <->
  ~ ((0 <= c <= 8) \/ (11 <= c <= 12) \/ (14 <= c <= 31) \/ c = 127)%N.
Proof.
  unfold Char.is_control, Char.in_range, Char.eq_char.
  rewrite !orb_false_iff, !andb_false_iff, !N.leb_gt, !N.eqb_neq. lia.
Qed.

(** ** The three substitutions of [_clean_text] *)

Lemma control_match c s :
  rmatch control_pattern (c :: s)
  = if Char.is_control c then Some 1%nat else None.
Proof. simpl. now destruct (Char.is_control c). Qed.

Lemma greedy_all p s :
  greedy p (fun _ => Some O) s = Some (length (take_while p s)).
Proof.
  induction s as [|c s IH]; simpl; [reflexivity|].
  destruct (p c); [now rewrite IH | reflexivity].
Qed.

Lemma blanks_match c s :
  rmatch blanks_pattern (c :: s)
  = if Char.is_blank c
    then Some (S (length (take_while Char.is_blank s))) else None.
Proof.
  simpl. destruct (Char.is_blank c); [|reflexivity].
  now rewrite greedy_all.
Qed.

Lemma greedy_last_nl s :
  greedy Char.is_space (one (Char.eq_char Char.nl) (fun _ => Some O)) s
  = option_map S (last_nl (take_while Char.is_space s)).
Proof.
  induction s as [|c s IH]; [reflexivity|].
  cbn [greedy take_while]. destruct (Char.is_space c) eqn:Hc.
  - rewrite IH. cbn [last_nl].
    destruct (last_nl (take_while Char.is_space s)); [reflexivity|].
    simpl. now destruct (Char.eq_char Char.nl c).
  - simpl. now rewrite (not_space_not_nl c Hc).
Qed.

Lemma blank_lines_match c s :
  rmatch blank_lines_pattern (c :: s)
  = if Char.eq_char Char.nl c
    then option_map (fun j => S (S j)) (last_nl (take_while Char.is_space s))
    else None.
Proof.
  cbn [blank_lines_pattern rmatch one].
  destruct (Char.eq_char Char.nl c); [|reflexivity].
  change (rmatch []) with (fun _ : str => Some O).
  rewrite greedy_last_nl.
  now destruct (last_nl (take_while Char.is_space s)).
Qed.

Lemma control_nonempty s : rmatch control_pattern s <> Some O.
Proof.
  destruct s as [|c s]; [discriminate|]. rewrite control_match.
  destruct (Char.is_control c); discriminate.
Qed.

Lemma blanks_nonempty s : rmatch blanks_pattern s <> Some O.
Proof.
  destruct s as [|c s]; [discriminate|]. rewrite blanks_match.
  destruct (Char.is_blank c); discriminate.
Qed.

Lemma blank_lines_nonempty s : rmatch blank_lines_pattern s <> Some O.
Proof.
  destruct s as [|c s]; [discriminate|]. rewrite blank_lines_match.
  destruct (Char.eq_char Char.nl c); [|discriminate].
  destruct (last_nl _); discriminate.
Qed.

Lemma last_nl_lt w j : last_nl w = Some j -> (j < length w)%nat.
Proof.
  revert j. induction w as [|c w IH]; intros j; simpl; [discriminate|].
  destruct (last_nl w) as [i|].
  - intros H; injection H as <-. specialize (IH i eq_refl). lia.
  - destruct (Char.eq_char Char.nl c); [|discriminate].
    intros H; injection H as <-. lia.
Qed.

Lemma last_nl_skipn w j : last_nl w = Some j -> last_nl (skipn (S j) w) = None.
Proof.
  revert j. induction w as [|c w IH]; intros j; [discriminate|].
  cbn [last_nl]. destruct (last_nl w) as [i|] eqn:E.
  - intros H; injection H as <-. now apply IH.
  - destruct (Char.eq_char Char.nl c); [|discriminate].
    intros H; injection H as <-. exact E.
Qed.

Lemma last_nl_cons_nl w :
  last_nl (Char.nl :: w)
  = Some (match last_nl w with Some j => S j | None => O end).
Proof.
  cbn [last_nl]. destruct (last_nl w); [reflexivity|].
  now rewrite eq_char_refl.
Qed.

Lemma take_while_skipn {A} (p : A -> bool) (l : list A) j :
  (j <= length (take_while p l))%nat ->
  take_while p (skipn j l) = skipn j (take_while p l).
Proof.
  revert j. induction l as [|x l IH]; intros [|j]; try reflexivity.
  simpl. destruct (p x); simpl; [|lia]. intros H. apply IH. lia.
Qed.

(** what is left of the white space after the last newline of a match *)
Lemma after_last_nl u j :
  last_nl (take_while Char.is_space u) = Some j ->
  last_nl (take_while Char.is_space (skipn (S j) u)) = None.
Proof.
  intros H. rewrite take_while_skipn.
  - now apply last_nl_skipn.
  - apply last_nl_lt in H. lia.
Qed.

(** *** Control characters *)

Lemma sub_control_clean s : no_control (sub_control s).
Proof.
  unfold no_control, sub_const.
  induction s as [|d s E IH|s n E IH] using (sub_ind control_pattern).
  - intros c [].
  - rewrite sub_copy by exact E. intros c [<-|H]; [|now apply IH].
    destruct E as [E|E]; [|now apply control_nonempty in E].
    rewrite control_match in E. now destruct (Char.is_control d).
  - rewrite (sub_replace _ _ s n E). exact IH.
Qed.

Lemma sub_control_fixed s : no_control s -> sub_control s = s.
Proof.
  intros H. apply sub_fixed. intros a [|c t] n -> E; [discriminate|].
  rewrite control_match in E. rewrite H in E; [discriminate|].
  apply in_app_iff. right. now left.
Qed.

(** *** Runs of blanks *)

Lemma spaced_app_r a b : spaced (a ++ b) = true -> spaced b = true.
Proof.
  induction a as [|c a IH]; simpl; [auto|].
  intros H. apply andb_true_iff in H. tauto.
Qed.

Lemma spaced_app_l a b : spaced (a ++ b) = true -> spaced a = true.
Proof.
  induction a as [|c a IH]; simpl; [auto|].
  intros H. apply andb_true_iff in H. destruct H as [H1 H2].
  rewrite (IH H2), andb_true_r.
  destruct a as [|d a]; [|exact H1].
  simpl in *. destruct (Char.is_blank c); simpl in *; [|reflexivity].
  apply andb_true_iff in H1. destruct H1 as [-> _]. reflexivity.
Qed.

Lemma starts_blank_take_while u :
  starts_blank u = false -> take_while Char.is_blank u = [].
Proof. destruct u as [|d u]; simpl; [reflexivity|]. now intros ->. Qed.

Lemma starts_blank_drop_while u :
  starts_blank (drop_while Char.is_blank u) = false.
Proof.
  destruct (drop_while Char.is_blank u) as [|d t] eqn:E; [reflexivity|].
  simpl. eapply drop_while_head, E.
Qed.

Lemma sub_blanks_starts t :
  starts_blank t = false -> starts_blank (sub_blanks t) = false.
Proof.
  destruct t as [|d t]; [reflexivity|]. simpl. intros H.
  unfold sub_const. rewrite sub_copy; [exact H|].
  left. rewrite blanks_match. now rewrite H.
Qed.

Lemma sub_blanks_spaced s : spaced (sub_blanks s) = true.
Proof.
  unfold sub_const.
  induction s as [|d s E IH|s n E IH] using (sub_ind blanks_pattern).
  - reflexivity.
  - rewrite sub_copy by exact E. simpl. rewrite IH, andb_true_r.
    destruct E as [E|E]; [|now apply blanks_nonempty in E].
    rewrite blanks_match in E. now destruct (Char.is_blank d).
  - rewrite (sub_replace _ _ s n E). simpl. rewrite IH, andb_true_r.
    destruct s as [|c u]; [discriminate|]. rewrite blanks_match in E.
    destruct (Char.is_blank c); [|discriminate]. injection E as <-.
    change (skipn (S ?k) (c :: u)) with (skipn k u).
    rewrite <- drop_while_skipn.
    apply negb_true_iff.
    apply (sub_blanks_starts _ (starts_blank_drop_while u)).
Qed.

Lemma sub_blanks_fixed s : spaced s = true -> sub_blanks s = s.
Proof.
  intros H. apply sub_fixed. intros a [|c t] n -> E; [discriminate|].
  apply spaced_app_r in H. simpl in H.
  rewrite blanks_match in E. destruct (Char.is_blank c); [|discriminate].
  simpl in H. apply andb_true_iff in H. destruct H as [H _].
  apply andb_true_iff in H. destruct H as [Hc Hu].
  apply eq_char_true in Hc. subst c. apply negb_true_iff in Hu.
  rewrite (starts_blank_take_while t Hu) in E. injection E as <-.
  reflexivity.
Qed.

(** *** Blank lines *)

Lemma sub_blank_lines_copy c s :
  (if Char.eq_char Char.nl c
   then last_nl (take_while Char.is_space s) else None) = None ->
  sub_blank_lines (c :: s) = c :: sub_blank_lines s.
Proof.
  intros H. unfold sub_const. apply sub_copy. left.
  rewrite blank_lines_match. destruct (Char.eq_char Char.nl c); [|reflexivity].
  now rewrite H.
Qed.

Lemma sub_blank_lines_replace s j :
  last_nl (take_while Char.is_space s) = Some j ->
  sub_blank_lines (Char.nl :: s)
  = Char.nl :: Char.nl :: sub_blank_lines (skipn (S j) s).
Proof.
  intros H. unfold sub_const.
  rewrite (sub_replace _ _ (Char.nl :: s) (S j)); [reflexivity|].
  rewrite blank_lines_match, eq_char_refl, H. reflexivity.
Qed.

(** the three cases of the scan for blank lines *)
Lemma sub_blank_lines_cases (P : str -> Prop) :
  P [] ->
  (forall c s,
      (if Char.eq_char Char.nl c
       then last_nl (take_while Char.is_space s) else None) = None ->
      sub_blank_lines (c :: s) = c :: sub_blank_lines s ->
      P s -> P (c :: s)) ->
  (forall s j,
      last_nl (take_while Char.is_space s) = Some j ->
      sub_blank_lines (Char.nl :: s)
      = Char.nl :: Char.nl :: sub_blank_lines (skipn (S j) s) ->
      P (skipn (S j) s) -> P (Char.nl :: s)) ->
  forall s, P s.
Proof.
  intros Hnil Hcopy Hrepl s.
  induction s as [|d s E IH|s n E IH] using (sub_ind blank_lines_pattern).
  - exact Hnil.
  - assert (Hm : (if Char.eq_char Char.nl d
                  then last_nl (take_while Char.is_space s) else None) = None).
    { destruct E as [E|E]; [|now apply blank_lines_nonempty in E].
      rewrite blank_lines_match in E.
      destruct (Char.eq_char Char.nl d); [|reflexivity].
      now destruct (last_nl _). }
    apply Hcopy; auto using sub_blank_lines_copy.
  - destruct s as [|c u]; [discriminate|]. rewrite blank_lines_match in E.
    destruct (Char.eq_char Char.nl c) eqn:Hc; [|discriminate].
    apply eq_char_true in Hc. subst c.
    destruct (last_nl (take_while Char.is_space u)) as [j|] eqn:Hj;
      [|discriminate].
    injection E as <-. apply (Hrepl u j Hj); auto using sub_blank_lines_replace.
Qed.

Lemma sub_blank_lines_starts s :
  starts_blank (sub_blank_lines s) = starts_blank s.
Proof.
  induction s as [|c s E Es _|s j E Es _] using sub_blank_lines_cases.
  - reflexivity.
  - now rewrite Es.
  - now rewrite Es.
Qed.

Lemma sub_blank_lines_spaced s :
  spaced s = true -> spaced (sub_blank_lines s) = true.
Proof.
  induction s as [|c s E Es IH|s j E Es IH] using sub_blank_lines_cases.
  - reflexivity.
  - rewrite Es. simpl. intros H. apply andb_true_iff in H.
    destruct H as [H1 H2]. rewrite (IH H2), andb_true_r.
    now rewrite sub_blank_lines_starts.
  - rewrite Es. intros H. change (spaced (sub_blank_lines (skipn (S j) s)) = true).
    apply IH. apply (spaced_app_r (firstn (S (S j)) (Char.nl :: s))).
    change (skipn (S j) s) with (skipn (S (S j)) (Char.nl :: s)).
    now rewrite firstn_skipn.
Qed.

(** white space without newline is copied *)
Lemma sub_blank_lines_run u :
  last_nl (take_while Char.is_space u) = None ->
  take_while Char.is_space (sub_blank_lines u) = take_while Char.is_space u.
Proof.
  induction u as [|c u IH]; [reflexivity|].
  cbn [take_while]. destruct (Char.is_space c) eqn:Hc.
  - cbn [last_nl]. destruct (last_nl (take_while Char.is_space u)) eqn:E;
      [discriminate|].
    destruct (Char.eq_char Char.nl c) eqn:Hn; [discriminate|]. intros _.
    rewrite sub_blank_lines_copy by now rewrite Hn.
    cbn [take_while]. rewrite Hc. now rewrite IH.
  - intros _. rewrite sub_blank_lines_copy
      by now rewrite (not_space_not_nl c Hc).
    cbn [take_while]. now rewrite Hc.
Qed.

Lemma settled_app_r a b : settled (a ++ b) = true -> settled b = true.
Proof.
  induction a as [|c a IH]; simpl; [auto|].
  intros H. apply andb_true_iff in H. tauto.
Qed.

Lemma sub_blank_lines_settled s : settled (sub_blank_lines s) = true.
Proof.
  induction s as [|c s E Es IH|s j E Es IH] using sub_blank_lines_cases.
  - reflexivity.
  - rewrite Es. cbn [settled]. rewrite IH, andb_true_r.
    destruct (Char.eq_char Char.nl c); [|reflexivity].
    unfold gap_ok. rewrite sub_blank_lines_run by exact E. now rewrite E.
  - rewrite Es. pose proof (after_last_nl s j E) as Hr.
    pose proof (sub_blank_lines_run _ Hr) as Ht.
    cbn [settled]. rewrite IH, andb_true_r, eq_char_refl. cbn [negb orb].
    unfold gap_ok at 2. rewrite Ht, Hr.
    unfold gap_ok. cbn [take_while].
    change (Char.is_space Char.nl) with true. cbv iota.
    rewrite Ht, last_nl_cons_nl, Hr. reflexivity.
Qed.

Lemma sub_blank_lines_fixed s : settled s = true -> sub_blank_lines s = s.
Proof.
  intros H. apply sub_fixed. intros a [|c t] n -> E; [discriminate|].
  apply settled_app_r in H. cbn [settled] in H.
  rewrite blank_lines_match in E.
  destruct (Char.eq_char Char.nl c) eqn:Hc; [|discriminate].
  apply eq_char_true in Hc. subst c.
  apply andb_true_iff in H. destruct H as [H _].
  cbn [negb orb] in H. unfold gap_ok in H.
  destruct (last_nl (take_while Char.is_space t)) as [[|j]|] eqn:Hj;
    try discriminate.
  injection E as <-.
  destruct t as [|d t]; [discriminate|]. cbn [take_while] in Hj.
  destruct (Char.is_space d); [|discriminate]. cbn [last_nl] in Hj.
  destruct (last_nl (take_while Char.is_space t)); [discriminate|].
  destruct (Char.eq_char Char.nl d) eqn:Hd; [|discriminate].
  apply eq_char_true in Hd. now subst d.
Qed.

(** a settled string has no three newlines in a row *)
Lemma settled_no_triple s a b :
  settled s = true -> s <> a ++ [Char.nl; Char.nl; Char.nl] ++ b.
Proof.
  intros H ->. apply settled_app_r in H. cbn [app settled] in H.
  apply andb_true_iff in H. destruct H as [H _].
  rewrite eq_char_refl in H. cbn [negb orb] in H. unfold gap_ok in H.
  cbn [take_while] in H. change (Char.is_space Char.nl) with true in H.
  cbv iota in H. rewrite last_nl_cons_nl in H. cbn [take_while] in H.
  change (Char.is_space Char.nl) with true in H. cbv iota in H.
  rewrite last_nl_cons_nl in H. discriminate.
Qed.

(** a spaced string has no two blanks in a row *)
Lemma spaced_no_pair s a c d b :
  spaced s = true -> s = a ++ [c; d] ++ b ->
  ~ (Char.is_blank c = true /\ Char.is_blank d = true).
Proof.
  intros H -> [Hc Hd]. apply spaced_app_r in H. simpl in H.
  rewrite Hc, Hd in H. simpl in H. now rewrite andb_false_r in H.
Qed.

(** *** [strip] keeps what the substitutions established *)

Lemma rstrip_solid s : solid_end (rstrip s).
Proof.
  destruct (decide (rstrip s = [])) as [E|E]; [now left|].
  right. now apply rstrip_ends.
Qed.

Lemma solid_end_tail c s : solid_end (c :: s) -> solid_end s.
Proof.
  intros [H|(s' & d & H & Hd)]; [discriminate|].
  destruct s' as [|e s']; injection H as -> ->; [now left|].
  right. eauto.
Qed.

Lemma solid_end_run c s :
  solid_end (c :: s) -> Char.is_space c = true ->
  drop_while Char.is_space s <> [].
Proof.
  intros [H|(s' & d & H & Hd)] Hc; [discriminate|].
  destruct s' as [|e s']; injection H as -> ->; [congruence|].
  intros E. apply drop_while_nil in E. rewrite forallb_app in E.
  simpl in E. rewrite Hd in E. now rewrite andb_false_r in E.
Qed.

Lemma settled_app_l a b :
  solid_end a -> settled (a ++ b) = true -> settled a = true.
Proof.
  induction a as [|c a IH]; [reflexivity|].
  intros Ha H. cbn [app settled] in *. apply andb_true_iff in H.
  destruct H as [H1 H2]. rewrite (IH (solid_end_tail _ _ Ha) H2), andb_true_r.
  destruct (Char.eq_char Char.nl c) eqn:Hc; [|reflexivity].
  cbn [negb orb] in *. unfold gap_ok in *.
  rewrite take_while_stop in H1; [exact H1|].
  apply (solid_end_run c a Ha). now apply nl_is_space.
Qed.

Lemma strip_settled s : settled s = true -> settled (strip s) = true.
Proof.
  intros H. destruct (lstrip_split s) as (a & Ea & _).
  destruct (rstrip_split (lstrip s)) as (b & Eb & _).
  rewrite Ea in H. apply settled_app_r in H. rewrite Eb in H.
  apply settled_app_l in H; [exact H|]. apply rstrip_solid.
Qed.

Lemma strip_spaced s : spaced s = true -> spaced (strip s) = true.
Proof.
  intros H. destruct (strip_split s) as (a & b & E & _).
  rewrite E in H. now apply spaced_app_r, spaced_app_l in H.
Qed.

Lemma strip_in s c : In c (strip s) -> In c s.
Proof.
  intros H. destruct (strip_split s) as (a & b & E & _).
  rewrite E, !in_app_iff. tauto.
Qed.

(** *** The normal form *)

Lemma clean_text_normal x : normal (_clean_text x).
Proof.
  unfold _clean_text. repeat split.
  - intros c H. apply strip_in in H.
    apply sub_const_in in H. destruct H as [H|[<-|[<-|[]]]]; [|reflexivity..].
    apply sub_const_in in H. destruct H as [H|[<-|[]]]; [|reflexivity].
    now apply sub_control_clean in H.
  - apply strip_spaced, sub_blank_lines_spaced, sub_blanks_spaced.
  - apply strip_settled, sub_blank_lines_settled.
  - apply strip_idem.
Qed.

Lemma normal_fixed s : normal s -> _clean_text s = s.
Proof.
  intros (H1 & H2 & H3 & H4). unfold _clean_text.
  rewrite sub_control_fixed by exact H1.
  rewrite sub_blanks_fixed by exact H2.
  rewrite sub_blank_lines_fixed by exact H3.
  exact H4.
Qed.

(** C6: [_clean_text] is idempotent. *)
Theorem clean_text_idempotent (x : str) :
  _clean_text (_clean_text x) = _clean_text x.
Proof. apply normal_fixed, clean_text_normal. Qed.

(** C7: the result of [_clean_text] has no character of the ranges
    0x00-0x08, 0x0B-0x0C, 0x0E-0x1F, 0x7F, no three newlines in a row and no
    two space or tab characters in a row. *)
Theorem clean_text_invariant (x : str) :
  (forall c, In c (_clean_text x) ->
     ~ ((0 <= c <= 8) \/ (11 <= c <= 12) \/ (14 <= c <= 31) \/ c = 127)%N)
  /\ (forall a b, _clean_text x <> a ++ [Char.nl; Char.nl; Char.nl] ++ b)
  /\ (forall a c d b,
         _clean_text x = a ++ [c; d] ++ b ->
         ~ ((c = Char.space \/ c = Char.tab)
            /\ (d = Char.space \/ d = Char.tab))).
Proof.
  destruct (clean_text_normal x) as (H1 & H2 & H3 & _). repeat split.
  - intros c H. apply is_control_ranges. now apply H1.
  - intros a b. now apply settled_no_triple.
  - intros a c d b E [Hc Hd].
    apply (spaced_no_pair _ a c d b H2 E). unfold Char.is_blank.
    split; apply orb_true_iff.
    + destruct Hc as [-> | ->]; [left|right]; reflexivity.
    + destruct Hd as [-> | ->]; [left|right]; reflexivity.
Qed.

(** ** Lines *)

Lemma split_nl_cons c s :
  Char.not_nl c = true ->
  split_nl (c :: s) = (c :: first_line s) :: tl (split_nl s).
Proof.
  unfold Char.not_nl, first_line. intros H. apply negb_true_iff in H.
  cbn [split_nl]. rewrite H. now destruct (split_nl s).
Qed.

Lemma first_line_plain a : no_nl a = true -> first_line a = a.
Proof.
  induction a as [|c a IH]; [reflexivity|]. cbn [no_nl forallb].
  intros H. apply andb_true_iff in H. destruct H as [Hc Ha].
  unfold first_line. rewrite split_nl_cons by exact Hc. cbn [hd].
  f_equal. now apply IH.
Qed.

Lemma first_line_app a b :
  no_nl a = true -> first_line (a ++ Char.nl :: b) = a.
Proof.
  induction a as [|c a IH].
  - intros _. unfold first_line. cbn [app split_nl].
    now rewrite eq_char_refl.
  - cbn [no_nl forallb]. intros H. apply andb_true_iff in H.
    destruct H as [Hc Ha]. unfold first_line. cbn [app].
    rewrite split_nl_cons by exact Hc. cbn [hd]. f_equal. now apply IH.
Qed.

Lemma split_nl_lines s : Forall (fun l => no_nl l = true) (split_nl s).
Proof.
  induction s as [|c s IH]; [repeat constructor|].
  cbn [split_nl]. destruct (Char.eq_char Char.nl c) eqn:Hc.
  - constructor; [reflexivity | exact IH].
  - destruct (split_nl s) as [|l ls]; [repeat constructor|].
    + cbn. unfold Char.not_nl. now rewrite Hc.
    + inversion IH as [|? ? Hl Hls]; subst. constructor; [|exact Hls].
      cbn [no_nl forallb]. unfold Char.not_nl at 1. rewrite Hc. exact Hl.
Qed.

Lemma no_nl_app a b : no_nl (a ++ b) = no_nl a && no_nl b.
Proof. apply forallb_app. Qed.

(** ** Heading lines *)

Module Heading.

Lemma greedy_succeeds p k s : k s <> None -> greedy p k s <> None.
Proof.
  destruct s as [|c s]; simpl; [auto|].
  destruct (p c); [|auto]. now destruct (greedy p k s).
Qed.

Lemma opt_succeeds p k s : k s <> None -> opt p k s <> None.
Proof.
  destruct s as [|c s]; simpl; [auto|].
  destruct (p c); [|auto]. now destruct (k s).
Qed.

Lemma one_extends t p k k' : extends t k k' -> extends t (one p k) (one p k').
Proof.
  intros H [|c s] n Hs; simpl; [discriminate|].
  cbn [no_nl forallb] in Hs. apply andb_true_iff in Hs.
  destruct (p c); [|discriminate].
  destruct (k s) as [m|] eqn:E; [|discriminate]. intros _.
  specialize (H s m (proj2 Hs) E). now destruct (k' (s ++ t)).
Qed.

Lemma opt_extends t p k k' : extends t k k' -> extends t (opt p k) (opt p k').
Proof.
  intros H [|c s] n Hs.
  - cbn [opt app]. intros E. apply opt_succeeds. apply (H [] n Hs E).
  - cbn [opt app]. pose proof Hs as Hs'.
    cbn [no_nl forallb] in Hs'. apply andb_true_iff in Hs'.
    destruct (p c); [|apply (H (c :: s) n Hs)].
    destruct (k s) as [m|] eqn:E.
    + intros _. specialize (H s m (proj2 Hs') E). now destruct (k' (s ++ t)).
    + intros E'. specialize (H (c :: s) n Hs E').
      now destruct (k' (s ++ t)).
Qed.

Lemma greedy_extends t p k k' :
  extends t k k' -> extends t (greedy p k) (greedy p k').
Proof.
  intros H s. induction s as [|c s IH]; intros n Hs.
  - cbn [greedy app]. intros E. apply greedy_succeeds. apply (H [] n Hs E).
  - cbn [greedy app]. pose proof Hs as Hs'.
    cbn [no_nl forallb] in Hs'. apply andb_true_iff in Hs'.
    destruct (p c); [|apply (H (c :: s) n Hs)].
    destruct (greedy p k s) as [m|] eqn:E.
    + intros _. specialize (IH m (proj2 Hs') eq_refl).
      now destruct (greedy p k' (s ++ t)).
    + intros E'. specialize (H (c :: s) n Hs E').
      now destruct (greedy p k' (s ++ t)).
Qed.

(** [.*$] takes a whole string without newline *)
Lemma rest_of_line u :
  no_nl u = true ->
  greedy Char.not_nl (eos (fun _ => Some O)) u = Some (length u).
Proof.
  induction u as [|c u IH]; [reflexivity|].
  cbn [no_nl forallb]. intros H. apply andb_true_iff in H.
  destruct H as [Hc Hu]. cbn [greedy]. rewrite Hc.
  now rewrite (IH Hu).
Qed.

Lemma rest_of_line_extends t :
  no_nl t = true ->
  extends t (greedy Char.not_nl (eos (fun _ => Some O)))
            (greedy Char.not_nl (eos (fun _ => Some O))).
Proof.
  intros Ht s n Hs _. rewrite rest_of_line; [discriminate|].
  now rewrite no_nl_app, Hs, Ht.
Qed.

(** white space without newline after a heading line leaves it one *)
Lemma is_header_app h t :
  no_nl h = true -> no_nl t = true ->
  is_header h = true -> is_header (h ++ t) = true.
Proof.
  intros Hh Ht. unfold is_header, matches.
  destruct (rmatch header_pattern h) as [n|] eqn:E; [intros _|discriminate].
  assert (H : rmatch header_pattern (h ++ t) <> None).
  { revert E. apply (one_extends t); [|exact Hh].
    do 3 apply opt_extends. apply one_extends, greedy_extends.
    apply one_extends. now apply rest_of_line_extends. }
  now destruct (rmatch header_pattern (h ++ t)).
Qed.

Lemma is_header_nonempty h : is_header h = true -> h <> [].
Proof. now intros H ->. Qed.

End Heading.

(** ** The sections of [_split_by_headers_manual] *)

Lemma rstrip_strip s : rstrip (strip s) = strip s.
Proof. apply rstrip_idem. Qed.

Lemma lstrip_strip s : lstrip (strip s) = strip s.
Proof.
  unfold strip. rewrite <- rstrip_lstrip. now rewrite lstrip_idem.
Qed.

Lemma no_nl_strip_parts h a b :
  h = a ++ strip h ++ b -> no_nl h = true ->
  no_nl (strip h) = true /\ no_nl b = true.
Proof.
  intros E H. rewrite E in H. rewrite !no_nl_app in H.
  apply andb_true_iff in H. destruct H as [_ H].
  now apply andb_true_iff in H.
Qed.

Lemma rstrip_prefix_nl j r c :
  rstrip (Char.nl :: j) = c :: r -> c = Char.nl.
Proof.
  intros E. destruct (rstrip_split (Char.nl :: j)) as (b & Eb & _).
  rewrite E in Eb. now injection Eb.
Qed.

Lemma closed_headed h rest :
  is_header (strip h) = true -> no_nl h = true ->
  let section_text := strip (join_nl (h :: rest)) in
  nonempty section_text = true /\ headed section_text.
Proof.
  intros Hh Hn.
  destruct (strip_split h) as (a & b & E & Ha & Hb).
  destruct (no_nl_strip_parts h a b E Hn) as [HnH Hnb].
  pose proof (Heading.is_header_nonempty _ Hh) as Hne.
  assert (Hl : lstrip (strip h) <> []) by now rewrite lstrip_strip.
  assert (Ej : exists z, join_nl (h :: rest) = h ++ z
                         /\ (z = [] \/ exists j, z = Char.nl :: j)).
  { destruct rest as [|l rest]; [exists []|exists (Char.nl :: join_nl (l :: rest))].
    - split; [now rewrite app_nil_r | now left].
    - split; [reflexivity | right; eauto]. }
  destruct Ej as (z & Ej & Hz). cbv zeta. rewrite Ej.
  assert (Es : strip (h ++ z) = rstrip (strip h ++ (b ++ z))).
  { unfold strip at 1. rewrite E at 1. rewrite <- !app_assoc.
    rewrite lstrip_app_blank by exact Ha.
    rewrite lstrip_app by exact Hl. now rewrite lstrip_strip. }
  rewrite Es. clear Es Ej.
  assert (Hstrip : strip (strip h ++ b) = strip h).
  { unfold strip at 1. rewrite lstrip_app by exact Hl.
    rewrite lstrip_strip, rstrip_app_blank by exact Hb. apply rstrip_strip. }
  destruct (blank (b ++ z)) eqn:Hbz.
  - rewrite rstrip_app_blank by exact Hbz. rewrite rstrip_strip.
    split; [now apply nonempty_true|]. unfold headed.
    rewrite first_line_plain by exact HnH. now rewrite strip_idem.
  - assert (Hr : rstrip (b ++ z) <> []).
    { intros H. apply rstrip_nil in H. congruence. }
    rewrite rstrip_app by exact Hr.
    split; [apply nonempty_true; now destruct (strip h)|].
    rewrite blank_app, Hb in Hbz. cbn [andb] in Hbz.
    destruct Hz as [-> | (j & ->)]; [discriminate|].
    assert (Hrz : rstrip (Char.nl :: j) <> []).
    { intros H. apply rstrip_nil in H. congruence. }
    rewrite (rstrip_app b) by exact Hrz.
    destruct (rstrip (Char.nl :: j)) as [|c r] eqn:Er; [easy|].
    apply rstrip_prefix_nl in Er as ->.
    unfold headed. rewrite app_assoc.
    rewrite first_line_app by now rewrite no_nl_app, HnH, Hnb.
    rewrite Hstrip. split; [|exact Hh].
    now apply Heading.is_header_app.
Qed.

Lemma close_section_headed sections current_section :
  Forall headed (tl sections) ->
  sections = [] \/ opened current_section ->
  Forall headed (tl (close_section sections current_section)).
Proof.
  intros Hs Hc. unfold close_section.
  destruct current_section as [|l ls]; [exact Hs|].
  destruct (nonempty (strip (join_nl (l :: ls)))) eqn:Hne; [|exact Hs].
  destruct sections as [|s0 sections]; [constructor|].
  cbn [app tl] in *. apply Forall_app. split; [exact Hs|].
  destruct Hc as [Hc|(h & rest & Hc & Hh & Hn)]; [discriminate|].
  injection Hc as -> ->. constructor; [|constructor].
  now apply closed_headed.
Qed.

Lemma header_step_invariant st line :
  no_nl line = true ->
  segment_invariant st -> segment_invariant (header_step st line).
Proof.
  intros Hn. destruct st as [sections current_section].
  unfold segment_invariant, header_step. cbn [fst snd]. intros [Hs Hc].
  destruct (is_header (strip line)) eqn:Hh; cbn [fst snd].
  - split; [now apply close_section_headed|].
    right. exists line, []. auto.
  - split; [exact Hs|]. destruct Hc as [Hc|(h & rest & -> & Hc)]; [now left|].
    right. exists h, (rest ++ [line]). auto.
Qed.

Lemma fold_header_step_invariant lines st :
  Forall (fun l => no_nl l = true) lines ->
  segment_invariant st ->
  segment_invariant (fold_left header_step lines st).
Proof.
  revert st. induction lines as [|l lines IH]; intros st Hl Hst; [exact Hst|].
  inversion Hl; subst. cbn [fold_left]. apply IH; [assumption|].
  now apply header_step_invariant.
Qed.

Lemma split_by_headers_headed text :
  Forall headed (tl (_split_by_headers_manual text)).
Proof.
  unfold _split_by_headers_manual.
  pose proof (fold_header_step_invariant (split_nl text) ([], [])
                (split_nl_lines text)) as H.
  destruct (fold_left header_step (split_nl text) ([], []))
    as [sections current_section].
  destruct H as [Hs Hc]; [split; [constructor | now left]|].
  now apply close_section_headed.
Qed.

(** C8: every section returned by [_split_by_headers_manual] but the first
    has a first line that matches the heading pattern (as it stands in the
    section, and stripped as the segmenter tests it). *)
Theorem split_by_headers_first_line (text : str) (i : nat) (section : str) :
  i <> 0%nat ->
  nth_error (_split_by_headers_manual text) i = Some section ->
  matches header_pattern (first_line section) = true
  /\ matches header_pattern (strip (first_line section)) = true.
Proof.
  intros Hi H. pose proof (split_by_headers_headed text) as Hall.
  destruct i as [|i]; [easy|].
  destruct (_split_by_headers_manual text) as [|s0 l]; [discriminate|].
  cbn [tl nth_error] in *. apply nth_error_In in H.
  rewrite List.Forall_forall in Hall. apply (Hall section H).
Qed.

Lemma split_by_headers_first_line_witness :
  matches header_pattern
    (first_line (lit "## B" ++ [Char.nl] ++ lit "body2")) = true
  /\ matches header_pattern
       (strip (first_line (lit "## B" ++ [Char.nl] ++ lit "body2"))) = true.
Proof.
  apply (split_by_headers_first_line
           (lit "# A" ++ [Char.nl] ++ lit "body1" ++ [Char.nl]
            ++ lit "## B" ++ [Char.nl] ++ lit "body2") 1).
  - discriminate.
  - vm_compute. reflexivity.
Defined.

(** ** No section is blank *)

Lemma nonblank_app_l a b : nonblank a -> nonblank (a ++ b).
Proof.
  unfold nonblank. rewrite !nonempty_strip, blank_app.
  intros H. apply negb_true_iff in H. now rewrite H.
Qed.

Lemma close_section_nonblank sections current_section :
  Forall nonblank sections ->
  Forall nonblank (close_section sections current_section).
Proof.
  intros H. unfold close_section.
  destruct current_section as [|l ls]; [exact H|].
  destruct (nonempty (strip (join_nl (l :: ls)))) eqn:E; [|exact H].
  apply Forall_app. split; [exact H|]. constructor; [|constructor].
  unfold nonblank. now rewrite strip_idem.
Qed.

Lemma fold_header_step_nonblank lines st :
  Forall nonblank (fst st) ->
  Forall nonblank (fst (fold_left header_step lines st)).
Proof.
  revert st. induction lines as [|l lines IH]; intros st H; [exact H|].
  cbn [fold_left]. apply IH. destruct st as [sections current_section].
  unfold header_step. destruct (is_header (strip l)); cbn [fst] in *;
    [now apply close_section_nonblank | exact H].
Qed.

Lemma split_by_headers_nonblank text :
  Forall nonblank (_split_by_headers_manual text).
Proof.
  unfold _split_by_headers_manual.
  pose proof (fold_header_step_nonblank (split_nl text) ([], [])
                (List.Forall_nil _)) as H.
  destruct (fold_left header_step (split_nl text) ([], [])).
  now apply close_section_nonblank.
Qed.

Lemma list_pair_ind {A} (P : list A -> Prop) :
  P [] -> (forall x, P [x]) ->
  (forall x y l, P l -> P (y :: l) -> P (x :: y :: l)) ->
  forall l, P l.
Proof.
  intros H0 H1 H2 l. enough (P l /\ forall x, P (x :: l)) by tauto.
  induction l as [|y l [IH1 IH2]]; split; auto.
Qed.

Lemma merge_pass_nonblank min_chunk_size sections :
  Forall nonblank sections ->
  Forall nonblank (merge_pass min_chunk_size sections).
Proof.
  induction sections as [|x|x y l IH1 IH2] using list_pair_ind; intros H.
  - constructor.
  - exact H.
  - inversion H as [|? ? Hx Hyl]; subst. inversion Hyl; subst.
    cbn [merge_pass]. destruct (small min_chunk_size x).
    + constructor; [now apply nonblank_app_l | now apply IH1].
    + constructor; [exact Hx | now apply IH2].
Qed.

Lemma sections_after_merge_nonblank min_chunk_size content :
  Forall nonblank (sections_after_merge min_chunk_size content).
Proof.
  unfold sections_after_merge. rewrite merge_small_chunks_pass.
  apply merge_pass_nonblank, split_by_headers_nonblank.
Qed.

(** ** The chunks of a document *)

Lemma build_sections_nth i section_texts k section :
  nth_error (build_sections i section_texts) k = Some section ->
  exists j text,
    nth_error section_texts j = Some text
    /\ (k <= j)%nat
    /\ section = mkDocument (PStr (_clean_table_formatting (strip text)))
                   {[ "section_index"%string := PInt (Z.of_nat (i + j)) ]}.
Proof.
  revert i k. induction section_texts as [|t l IH]; intros i k;
    [now destruct k|].
  cbn [build_sections]. destruct (nonempty (strip t)).
  - destruct k as [|k]; cbn [nth_error].
    + intros H; injection H as <-. exists 0%nat, t.
      rewrite Nat.add_0_r. auto.
    + intros H. destruct (IH _ _ H) as (j & text & Hj & Hk & ->).
      exists (S j), text. replace (i + S j)%nat with (S i + j)%nat by lia.
      split; [exact Hj|]. split; [lia | reflexivity].
  - intros H. destruct (IH _ _ H) as (j & text & Hj & Hk & ->).
    exists (S j), text. replace (i + S j)%nat with (S i + j)%nat by lia.
    split; [exact Hj|]. split; [lia | reflexivity].
Qed.

(** where no text is blank, nothing is dropped *)
Lemma build_sections_dense i section_texts :
  Forall nonblank section_texts ->
  length (build_sections i section_texts) = length section_texts
  /\ forall k section,
       nth_error (build_sections i section_texts) k = Some section ->
       metadata section
       = {[ "section_index"%string := PInt (Z.of_nat (i + k)) ]}.
Proof.
  revert i. induction section_texts as [|t l IH]; intros i H.
  - split; [reflexivity|]. now intros [|k].
  - inversion H as [|? ? Ht Hl]; subst. cbn [build_sections].
    unfold nonblank in Ht. rewrite Ht.
    destruct (IH (S i) Hl) as [IHlen IHnth]. split.
    + cbn [length]. now rewrite IHlen.
    + intros [|k] section; cbn [nth_error].
      * intros E; injection E as <-. now rewrite Nat.add_0_r.
      * intros E. rewrite (IHnth k section E).
        now replace (i + S k)%nat with (S i + k)%nat by lia.
Qed.

Lemma build_chunks_length document chunk_index sections :
  length (build_chunks document chunk_index sections) = length sections.
Proof.
  revert chunk_index. induction sections as [|s l IH]; intros c;
    [reflexivity|].
  cbn [build_chunks length]. now rewrite IH.
Qed.

Lemma build_chunks_nth document chunk_index sections k chunk :
  nth_error (build_chunks document chunk_index sections) k = Some chunk ->
  exists section,
    nth_error sections k = Some section
    /\ page_content chunk = page_content section
    /\ metadata chunk !! "section_index"%string
       = Some (default (PInt 0) (metadata section !! "section_index"%string))
    /\ metadata chunk !! "chunk_index"%string
       = Some (PInt (Z.of_nat (chunk_index + k))).
Proof.
  revert chunk_index k. induction sections as [|s l IH]; intros c k;
    [now destruct k|].
  cbn [build_chunks]. destruct k as [|k]; cbn [nth_error].
  - intros H; injection H as <-. exists s. cbn [page_content metadata].
    rewrite Nat.add_0_r. repeat split.
    + apply lookup_insert_eq.
    + rewrite !lookup_insert_ne by discriminate. apply lookup_insert_eq.
  - intros H. destruct (IH _ _ H) as (section & H1 & H2 & H3 & H4).
    exists section. replace (c + S k)%nat with (S c + k)%nat by lia. auto.
Qed.

(** a document for which [chunk_document] returns has a string content,
    and its chunks are those of the sections after the merge *)
Lemma chunk_document_with_ok min_chunk_size document log chunks :
  chunk_document_with min_chunk_size document = (log, Ok chunks) ->
  exists content,
    page_content document = PStr content
    /\ chunks
       = build_chunks document 0
           (build_sections 0 (sections_after_merge min_chunk_size content)).
Proof.
  unfold chunk_document_with.
  destruct (page_content document) as [content| |]; cbn; try discriminate.
  intros H; injection H as _ <-. eauto.
Qed.

Lemma chunk_document_with_text min_chunk_size content md :
  chunk_document_with min_chunk_size (mkDocument (PStr content) md)
  = ([], Ok (build_chunks (mkDocument (PStr content) md) 0
               (build_sections 0
                  (sections_after_merge min_chunk_size content)))).
Proof. reflexivity. Qed.

Lemma chunk_document_with_dense min_chunk_size document content log chunks :
  page_content document = PStr content ->
  chunk_document_with min_chunk_size document = (log, Ok chunks) ->
  length chunks = length (sections_after_merge min_chunk_size content)
  /\ forall k chunk,
       nth_error chunks k = Some chunk ->
       metadata chunk !! "section_index"%string = Some (PInt (Z.of_nat k))
       /\ metadata chunk !! "chunk_index"%string = Some (PInt (Z.of_nat k)).
Proof.
  intros Hc H. apply chunk_document_with_ok in H.
  destruct H as (content' & Hc' & ->).
  rewrite Hc in Hc'. injection Hc' as <-.
  destruct (build_sections_dense 0 _
              (sections_after_merge_nonblank min_chunk_size content))
    as [Hlen Hnth].
  split; [now rewrite build_chunks_length|].
  intros k chunk Hk. apply build_chunks_nth in Hk.
  destruct Hk as (section & H1 & _ & H3 & H4).
  rewrite H3, H4, (Hnth k section H1), lookup_singleton_eq.
  now split.
Qed.

(** C10: every chunk of [chunk_document] has the same ['section_index'] and
    ['chunk_index'], its position in the list of chunks: no section after
    the merge is blank, so the filter before the assembly drops none and
    there are as many chunks as sections after the merge. *)
Theorem chunk_document_indices_coincide
    (document : Document) (content : str)
    (log : list log_line) (chunks : list Document) :
  page_content document = PStr content ->
  chunk_document document = (log, Ok chunks) ->
  Forall nonblank (sections_after_merge 100 content)
  /\ length chunks = length (sections_after_merge 100 content)
  /\ forall k chunk,
       nth_error chunks k = Some chunk ->
       metadata chunk !! "section_index"%string = Some (PInt (Z.of_nat k))
       /\ metadata chunk !! "chunk_index"%string = Some (PInt (Z.of_nat k)).
Proof.
  intros Hc H. split; [apply sections_after_merge_nonblank|].
  now apply (chunk_document_with_dense 100 document content log chunks).
Qed.

Lemma chunk_document_indices_coincide_witness :
  Forall nonblank (sections_after_merge 100 fixture)
  /\ length (build_chunks fixture_document 0
            (build_sections 0 (sections_after_merge 100 fixture)))
  = length (sections_after_merge 100 fixture)
  /\ forall k chunk,
       nth_error (build_chunks fixture_document 0
                    (build_sections 0 (sections_after_merge 100 fixture))) k
       = Some chunk ->
       metadata chunk !! "section_index"%string = Some (PInt (Z.of_nat k))
       /\ metadata chunk !! "chunk_index"%string = Some (PInt (Z.of_nat k)).
Proof.
  apply (chunk_document_indices_coincide fixture_document fixture []);
    reflexivity.
Defined.

(** ** The section index of a chunk *)

Lemma three_sections_before :
  sections_before_merge three_sections
  = [lit "# A" ++ [Char.nl] ++ lit "x";
     lit "# B" ++ [Char.nl] ++ lit "y";
     lit "# C" ++ [Char.nl] ++ lit "z"].
Proof. vm_compute. reflexivity. Qed.

Lemma three_sections_chunks :
  exists c0 c1,
    chunk_document three_sections_document = ([], Ok [c0; c1])
    /\ page_content c1 = PStr (lit "# C" ++ [Char.nl] ++ lit "z")
    /\ metadata c1 !! "section_index"%string = Some (PInt 1).
Proof.
  eexists _, _. split; [vm_compute; reflexivity|].
  split; vm_compute; reflexivity.
Qed.

(** C2, as stated, fails: the chunk made of the third section before the
    merge carries the section index 1. *)
Lemma section_index_before_merge_fails :
  ~ section_index_before_merge three_sections_document.
Proof.
  intros H. destruct three_sections_chunks as (c0 & c1 & Hc & Hp & Hm).
  destruct (H three_sections [] [c0; c1] c1 eq_refl Hc)
    as (j & section & tail & Hj & Hs & Ht & Hcontent);
    [right; now left|].
  rewrite Hm in Hj. injection Hj as Hj.
  assert (j = 1%nat) as -> by lia.
  rewrite three_sections_before in Hs, Ht. cbn [nth_error] in Hs, Ht.
  injection Hs as <-. rewrite Hp in Hcontent.
  destruct Ht as [-> | (next & Hn & ->)].
  - vm_compute in Hcontent. discriminate.
  - injection Hn as <-. vm_compute in Hcontent. discriminate.
Qed.

(** C2, amended: the section index of a chunk is the position of its
    section in the list of sections after the merge. *)
Theorem section_index_after_merge
    (document : Document) (content : str)
    (log : list log_line) (chunks : list Document) (chunk : Document) :
  page_content document = PStr content ->
  chunk_document document = (log, Ok chunks) ->
  In chunk chunks ->
  exists j text,
    metadata chunk !! "section_index"%string = Some (PInt (Z.of_nat j))
    /\ nth_error (sections_after_merge 100 content) j = Some text
    /\ page_content chunk = PStr (_clean_table_formatting (strip text)).
Proof.
  intros Hc H Hin. apply chunk_document_with_ok in H.
  destruct H as (content' & Hc' & ->).
  rewrite Hc in Hc'. injection Hc' as <-.
  apply In_nth_error in Hin. destruct Hin as (k & Hk).
  apply build_chunks_nth in Hk.
  destruct Hk as (section & H1 & H2 & H3 & _).
  apply build_sections_nth in H1.
  destruct H1 as (j & text & Hj & _ & ->).
  exists j, text. cbn [metadata page_content] in *.
  rewrite H3, lookup_singleton_eq. auto.
Qed.

Lemma section_index_after_merge_witness :
  exists j text,
    metadata
      (mkDocument
         (PStr (lit "# C" ++ [Char.nl] ++ lit "z"))
         (<[ "section_index"%string := PInt 1 ]>
          (<[ "original_length"%string := PInt 19 ]>
           (<[ "chunk_type"%string := PStr (lit "header_section") ]>
            (<[ "chunk_index"%string := PInt 1 ]> ∅)))))
      !! "section_index"%string
    = Some (PInt (Z.of_nat j))
    /\ nth_error (sections_after_merge 100 three_sections) j = Some text
    /\ PStr (lit "# C" ++ [Char.nl] ++ lit "z")
       = PStr (_clean_table_formatting (strip text)).
Proof.
  eapply (section_index_after_merge three_sections_document three_sections []).
  - reflexivity.
  - vm_compute. reflexivity.
  - right. left. reflexivity.
Defined.

(** ** The end-to-end scenario *)

Lemma fixture_sections_before :
  sections_before_merge fixture = [intro_line; section_one; sub_section].
Proof. vm_compute. reflexivity. Qed.

Lemma fixture_sections :
  build_sections 0 (sections_after_merge 20 fixture)
  = [mkDocument (PStr (intro_line ++ [Char.nl; Char.nl] ++ section_one))
       {[ "section_index"%string := PInt 0 ]};
     mkDocument (PStr sub_section)
       {[ "section_index"%string := PInt 1 ]}].
Proof. vm_compute. reflexivity. Qed.

(** C4, as stated, fails: the first chunk is not the heading section merged
    with its subsection. *)
Lemma scenario_as_specified_fails : ~ scenario_as_specified ∅.
Proof.
  intros (log & c0 & c1 & H & Hc).
  rewrite chunk_document_with_text, fixture_sections in H.
  cbn [build_chunks] in H. injection H as _ <- _.
  cbn [page_content] in Hc. vm_compute in Hc. discriminate.
Qed.

Lemma fixture_default_threshold :
  sections_after_merge 100 fixture = sections_after_merge 20 fixture.
Proof. vm_compute. reflexivity. Qed.

(** C4, amended: the scenario gives two chunks; the first is the preamble
    (under 20 characters) merged with the heading section after it, the
    second is the subsection, on its own.  The threshold 100 of
    [chunk_document] gives the same chunks. *)
Theorem scenario_chunks (md : gmap string pyval) :
  sections_before_merge fixture = [intro_line; section_one; sub_section]
  /\ small 20 intro_line = true
  /\ (exists c0 c1,
         chunk_document_with 20 (mkDocument (PStr fixture) md)
         = ([], Ok [c0; c1])
         /\ page_content c0
            = PStr (intro_line ++ [Char.nl; Char.nl] ++ section_one)
         /\ page_content c1 = PStr sub_section)
  /\ chunk_document (mkDocument (PStr fixture) md)
     = chunk_document_with 20 (mkDocument (PStr fixture) md).
Proof.
  split; [exact fixture_sections_before|]. split; [vm_compute; reflexivity|].
  split.
  - rewrite chunk_document_with_text, fixture_sections.
    cbn [build_chunks]. eexists _, _. split; [reflexivity|].
    split; reflexivity.
  - unfold chunk_document. rewrite !chunk_document_with_text.
    now rewrite fixture_default_threshold.
Qed.

(** ** A batch of documents *)

(** [chunk_document] returns chunks and logs nothing, or logs the error and
    raises it *)
Lemma chunk_document_cases document :
  (exists chunks, chunk_document document = ([], Ok chunks))
  \/ (exists e,
        chunk_document document
        = ([LogError "Error en chunking de documento" e], Raise e)).
Proof.
  unfold chunk_document, chunk_document_with.
  destruct (page_content document); cbn; eauto.
Qed.

(** the loop stops at the first document that raises *)
Lemma chunk_each_first documents all_chunks e :
  first_raise documents = Some e ->
  chunk_each documents all_chunks
  = ([LogError "Error en chunking de documento" e], Raise e).
Proof.
  revert all_chunks.
  induction documents as [|x rest IH]; intros acc; [discriminate|].
  cbn [first_raise chunk_each].
  destruct (chunk_document_cases x) as [(cs & E)|(e' & E)]; rewrite E.
  - intros H. cbn [bind]. now rewrite (IH (acc ++ cs) H).
  - intros H. injection H as ->. reflexivity.
Qed.

Lemma first_raise_in documents d l e :
  In d documents -> chunk_document d = (l, Raise e) ->
  exists e1, first_raise documents = Some e1.
Proof.
  induction documents as [|x rest IH]; intros Hin Hd; [destruct Hin|].
  cbn [first_raise].
  destruct (chunk_document x) as [lx [cs|ex]] eqn:Ex; [|eauto].
  destruct Hin as [-> | Hin]; [congruence | auto].
Qed.

(** C5, as stated, fails: after a document that raises, the batch raises
    and gives no chunk of the document that follows. *)
Lemma batch_continues_fails :
  ~ batch_continues [broken_document; fixture_document].
Proof.
  intros H.
  destruct (H [] broken_document [fixture_document]
              [LogError "Error en chunking de documento" TypeError] TypeError
              eq_refl eq_refl) as (log & chunks & Hb & _).
  vm_compute in Hb. discriminate.
Qed.

(** C5, amended: when chunking a document of the batch raises,
    [chunk_all_documents] stops at the first document that raises: it logs
    the error of this document, once for the document and once for the
    batch, and nothing else, and raises it again; the batch returns no
    chunks, of no document, and the documents after this one leave no
    trace.  [run_full_pipeline], whatever the embedding and indexing stages
    are, logs the same error and raises it again: nothing that these stages
    would log is logged, they are not run. *)
Theorem chunk_all_documents_aborts
    (documents : list Document) (d : Document)
    (l : list log_line) (e : exn) :
  In d documents ->
  chunk_document d = (l, Raise e) ->
  exists e1,
    first_raise documents = Some e1
    /\ chunk_all_documents documents
       = ([LogError "Error en chunking de documento" e1;
           LogError "Error en chunking masivo" e1],
          Raise e1)
    /\ forall l0 add_embeddings index_documents batch_e batch_i,
         run_full_pipeline (l0, Ok documents) add_embeddings
           index_documents batch_e batch_i
         = (l0 ++ [LogError "Error en chunking de documento" e1;
                   LogError "Error en chunking masivo" e1;
                   LogError "Error en el pipeline de documentos" e1],
            Raise e1).
Proof.
  intros Hin Hd.
  destruct (first_raise_in documents d l e Hin Hd) as (e1 & H1).
  assert (Hb : chunk_all_documents documents
               = ([LogError "Error en chunking de documento" e1;
                   LogError "Error en chunking masivo" e1],
                  Raise e1)).
  { unfold chunk_all_documents. now rewrite (chunk_each_first _ [] e1 H1). }
  exists e1. split; [exact H1|]. split; [exact Hb|].
  intros l0 add_embeddings index_documents batch_e batch_i.
  unfold run_full_pipeline. cbn [bind]. rewrite Hb.
  cbn [bind logged_reraise]. now rewrite <- app_assoc.
Qed.

Lemma chunk_all_documents_aborts_witness :
  exists e1,
    first_raise
      [fixture_document; broken_document; fixture_document; broken_document]
    = Some e1
    /\ chunk_all_documents
         [fixture_document; broken_document; fixture_document;
          broken_document]
       = ([LogError "Error en chunking de documento" e1;
           LogError "Error en chunking masivo" e1],
          Raise e1)
    /\ forall l0 add_embeddings index_documents batch_e batch_i,
         run_full_pipeline
           (l0, Ok [fixture_document; broken_document; fixture_document;
                    broken_document])
           add_embeddings index_documents batch_e batch_i
         = (l0 ++ [LogError "Error en chunking de documento" e1;
                   LogError "Error en chunking masivo" e1;
                   LogError "Error en el pipeline de documentos" e1],
            Raise e1).
Proof.
  apply (chunk_all_documents_aborts
           [fixture_document; broken_document; fixture_document;
            broken_document]
           broken_document
           [LogError "Error en chunking de documento" TypeError] TypeError).
  - right. left. reflexivity.
  - reflexivity.
Defined.

(** ** Table spans *)

Module TableFacts.

Import Table.

Lemma chars_match w r s n :
  rmatch (chars w ++ r) s = Some n <->
  exists rest m,
    s = w ++ rest /\ rmatch r rest = Some m /\ n = (length w + m)%nat.
Proof.
  revert s n. induction w as [|c w IH]; intros s n.
  - cbn [chars map app length]. split.
    + intros H. exists s, n. auto.
    + intros (rest & m & -> & H & ->). exact H.
  - cbn [chars map app rmatch]. fold (chars w). split.
    + destruct s as [|d s]; cbn [one]; [discriminate|].
      destruct (Char.eq_char c d) eqn:Hd; [|discriminate].
      apply eq_char_true in Hd. subst d.
      destruct (rmatch (chars w ++ r) s) as [k|] eqn:E; [|discriminate].
      intros H; injection H as <-. apply IH in E.
      destruct E as (rest & m & -> & Hr & ->). exists rest, m. auto.
    + intros (rest & m & -> & Hr & ->). cbn [one]. rewrite eq_char_refl.
      assert (E : rmatch (chars w ++ r) (w ++ rest) = Some (length w + m)%nat)
        by (apply IH; eauto).
      now rewrite E.
Qed.

Lemma lazy_sound k s n :
  lazy Char.any k s = Some n ->
  exists body rest m,
    s = body ++ rest /\ k rest = Some m /\ n = (length body + m)%nat.
Proof.
  revert n. induction s as [|c s IH]; intros n; cbn [lazy].
  - destruct (k []) as [m|] eqn:E; [|discriminate].
    intros H; injection H as <-. exists [], [], m. auto.
  - destruct (k (c :: s)) as [m|] eqn:E.
    + intros H; injection H as <-. exists [], (c :: s), m. auto.
    + cbn [Char.any]. destruct (lazy Char.any k s) as [j|]; [|discriminate].
      intros H; injection H as <-.
      destruct (IH j eq_refl) as (body & rest & m & -> & Hk & ->).
      exists (c :: body), rest, m. auto.
Qed.

Lemma lazy_complete k body rest :
  k rest <> None -> lazy Char.any k (body ++ rest) <> None.
Proof.
  intros H. induction body as [|c body IH].
  - destruct rest; cbn [app lazy]; now destruct (k _).
  - cbn [app lazy]. destruct (k (c :: body ++ rest)); [discriminate|].
    cbn [Char.any]. now destruct (lazy Char.any k (body ++ rest)).
Qed.

Lemma close_tag_match rest : rmatch (chars close_tag) (close_tag ++ rest) = Some 8%nat.
Proof.
  rewrite <- (app_nil_r (chars close_tag)). apply chars_match.
  exists rest, 0%nat. auto.
Qed.

(** a match of the pattern is a span: from [<table>] to a [</table>] *)
Lemma table_match_sound t n :
  rmatch table_pattern t = Some n ->
  exists body rest,
    t = open_tag ++ body ++ close_tag ++ rest
    /\ n = length (open_tag ++ body ++ close_tag).
Proof.
  unfold table_pattern. fold open_tag close_tag. intros H.
  apply chars_match in H. destruct H as (r1 & m1 & -> & H & ->).
  cbn [app rmatch] in H. apply lazy_sound in H.
  destruct H as (body & r2 & m2 & -> & H & ->).
  rewrite <- (app_nil_r (chars close_tag)) in H. apply chars_match in H.
  destruct H as (rest & m3 & -> & H & ->). injection H as <-.
  exists body, rest. split; [reflexivity|]. rewrite !length_app. lia.
Qed.

(** where a span starts, the pattern matches *)
Lemma table_match_complete body rest :
  rmatch table_pattern (open_tag ++ body ++ close_tag ++ rest) <> None.
Proof.
  unfold table_pattern. fold open_tag close_tag.
  destruct (rmatch (chars open_tag ++ [Lazy Char.any] ++ chars close_tag)
              (open_tag ++ body ++ close_tag ++ rest)) as [n|] eqn:E;
    [discriminate|].
  pose proof (lazy_complete (rmatch (chars close_tag)) body
                (close_tag ++ rest)) as H.
  rewrite close_tag_match in H.
  destruct (lazy Char.any (rmatch (chars close_tag))
              (body ++ close_tag ++ rest)) as [m|] eqn:El; [|now apply H].
  assert (E' : rmatch (chars open_tag ++ [Lazy Char.any] ++ chars close_tag)
                 (open_tag ++ body ++ close_tag ++ rest)
               = Some (length open_tag + m)%nat).
  { apply chars_match. exists (body ++ close_tag ++ rest), m. auto. }
  congruence.
Qed.

Lemma table_nonempty s : rmatch table_pattern s <> Some O.
Proof.
  intros H. apply table_match_sound in H.
  destruct H as (body & rest & _ & H). rewrite !length_app in H.
  cbn in H. lia.
Qed.

Lemma firstn_length_app {A} (a b : list A) : firstn (length a) (a ++ b) = a.
Proof. induction a as [|x a IH]; cbn; [reflexivity | now rewrite IH]. Qed.

(** the lazy repetition stops at the first place where what follows
    matches *)
Lemma lazy_first k s n :
  lazy Char.any k s = Some n ->
  exists body rest m,
    s = body ++ rest /\ k rest = Some m /\ n = (length body + m)%nat
    /\ forall a b, body = a ++ b -> b <> [] -> k (b ++ rest) = None.
Proof.
  revert n. induction s as [|c s IH]; intros n; cbn [lazy].
  - destruct (k []) as [m|] eqn:E; [|discriminate].
    intros H; injection H as <-. exists [], [], m. repeat split; auto.
    intros a b Hab Hb. symmetry in Hab. apply app_eq_nil in Hab.
    now destruct Hab.
  - destruct (k (c :: s)) as [m|] eqn:E.
    + intros H; injection H as <-. exists [], (c :: s), m.
      repeat split; auto.
      intros a b Hab Hb. symmetry in Hab. apply app_eq_nil in Hab.
      now destruct Hab.
    + cbn [Char.any]. destruct (lazy Char.any k s) as [j|]; [|discriminate].
      intros H; injection H as <-.
      destruct (IH j eq_refl) as (body & rest & m & -> & Hk & -> & Hf).
      exists (c :: body), rest, m. repeat split; auto.
      intros [|x a] b Hab Hb; cbn [app] in Hab.
      * subst b. exact E.
      * injection Hab as _ Hab. now apply (Hf a b).
Qed.

(** a match of the pattern is a span at the head of the text *)
Lemma table_match_first t n :
  rmatch table_pattern t = Some n ->
  exists body rest,
    t = open_tag ++ body ++ close_tag ++ rest
    /\ n = length (open_tag ++ body ++ close_tag)
    /\ forall a b, body <> a ++ close_tag ++ b.
Proof.
  unfold table_pattern. fold open_tag close_tag. intros H.
  apply chars_match in H. destruct H as (r1 & m1 & -> & H & ->).
  cbn [app rmatch] in H. apply lazy_first in H.
  destruct H as (body & r2 & m2 & -> & H & -> & Hf).
  rewrite <- (app_nil_r (chars close_tag)) in H. apply chars_match in H.
  destruct H as (rest & m3 & -> & H & ->). injection H as <-.
  exists body, rest. split; [reflexivity|]. split.
  - rewrite !length_app. lia.
  - intros a b ->.
    specialize (Hf a (close_tag ++ b) eq_refl).
    rewrite <- app_assoc, close_tag_match in Hf.
    assert (Hn : close_tag ++ b <> []) by discriminate.
    now apply Hf in Hn.
Qed.

(** [</table>] overlaps no shifted copy of itself *)
Lemma close_overlap u r r' :
  u <> [] -> u ++ close_tag ++ r' = close_tag ++ r ->
  exists b, u = close_tag ++ b.
Proof.
  unfold close_tag.
  change (lit "</table>") with [60; 47; 116; 97; 98; 108; 101; 62]%N.
  intros Hu H.
  destruct u as [|c1 u]; [congruence|].
  do 7 (destruct u as [|? u]; [cbn in H; discriminate H|]).
  cbn in H. injection H as -> -> -> -> -> -> -> -> _.
  now exists u.
Qed.

(** the first [</table>] of a text is at one place *)
Lemma first_close_unique body body' r r' :
  (forall a b, body <> a ++ close_tag ++ b) ->
  (forall a b, body' <> a ++ close_tag ++ b) ->
  body ++ close_tag ++ r = body' ++ close_tag ++ r' ->
  body = body'.
Proof.
  revert body'. induction body as [|c body IH]; intros [|c' body'] Hb Hb' H.
  - reflexivity.
  - symmetry in H. apply close_overlap in H; [|discriminate].
    destruct H as (b & H). now apply (Hb' [] b) in H.
  - apply close_overlap in H; [|discriminate].
    destruct H as (b & H). now apply (Hb [] b) in H.
  - cbn [app] in H. injection H as -> H. f_equal.
    apply (IH body'); [| |exact H].
    + intros a b ->. now apply (Hb (c' :: a) b).
    + intros a b ->. now apply (Hb' (c' :: a) b).
Qed.

(** at the head of a span the pattern matches this span, and no more *)
Lemma span_match t rest :
  is_span t -> rmatch table_pattern (t ++ rest) = Some (length t).
Proof.
  intros (body & -> & Hb).
  pose proof (table_match_complete body rest) as Hc.
  rewrite <- !app_assoc.
  destruct (rmatch table_pattern (open_tag ++ body ++ close_tag ++ rest))
    as [n|] eqn:E; [|congruence].
  destruct (table_match_first _ _ E) as (body' & rest' & Ht & -> & Hb').
  apply app_inv_head in Ht.
  now rewrite (first_close_unique _ _ _ _ Hb Hb' Ht).
Qed.

Lemma table_match_span t n :
  rmatch table_pattern t = Some n -> is_span (firstn n t).
Proof.
  intros H. apply table_match_first in H.
  destruct H as (body & rest & -> & -> & Hb). exists body.
  split; [|exact Hb].
  replace (open_tag ++ body ++ close_tag ++ rest)
    with ((open_tag ++ body ++ close_tag) ++ rest)
    by now rewrite <- !app_assoc.
  apply firstn_length_app.
Qed.

Lemma outside_nil rest : outside [] rest.
Proof.
  intros a b Hab Hb. symmetry in Hab. apply app_eq_nil in Hab.
  now destruct Hab.
Qed.

Lemma outside_cons c o rest :
  ~ starts_span (c :: o ++ rest) -> outside o rest -> outside (c :: o) rest.
Proof.
  intros Hc Ho [|x a] b Hab Hb; cbn [app] in Hab.
  - now subst b.
  - injection Hab as _ Hab. now apply (Ho a b).
Qed.

Lemma outside_head c o rest :
  outside (c :: o) rest -> ~ starts_span (c :: o ++ rest) /\ outside o rest.
Proof.
  intros H. split.
  - apply (H [] (c :: o)); [reflexivity | discriminate].
  - intros a b -> Hb. now apply (H (c :: a) b).
Qed.

Lemma no_match_no_span s :
  rmatch table_pattern s = None \/ rmatch table_pattern s = Some O ->
  ~ starts_span s.
Proof.
  intros [H|H] (body & rest & ->); [|now apply table_nonempty in H].
  now apply (table_match_complete body rest).
Qed.

Lemma no_span_no_match s :
  ~ starts_span s -> rmatch table_pattern s = None.
Proof.
  intros H. destruct (rmatch table_pattern s) as [n|] eqn:E; [|reflexivity].
  exfalso. apply H. apply table_match_sound in E.
  destruct E as (body & rest & -> & _). now exists body, rest.
Qed.

(** a test of [outside] on a given text *)
Lemma outside_check o rest :
  forallb (fun b => negb (nonempty b && matches table_pattern (b ++ rest)))
    (tails o) = true ->
  outside o rest.
Proof.
  induction o as [|c o IH]; [intros _; apply outside_nil|].
  cbn [tails forallb]. intros H. apply andb_true_iff in H.
  destruct H as [Hc Ho]. apply outside_cons; [|now apply IH].
  apply no_match_no_span. left.
  change (nonempty (c :: o)) with true in Hc. cbn [andb app] in Hc.
  unfold matches in Hc.
  now destruct (rmatch table_pattern (c :: o ++ rest)).
Qed.

(** the scan finds a cut of the text at its spans, and cleans the spans *)
Lemma clean_table_formatting_cut text :
  exists o0 segments,
    text = raw o0 segments
    /\ _clean_table_formatting text = cleaned o0 segments
    /\ cut_at_spans o0 segments.
Proof.
  unfold _clean_table_formatting.
  induction text as [|c s E IH|s n E IH] using (sub_ind table_pattern).
  - exists [], []. repeat split. apply outside_nil.
  - destruct IH as (o0 & segments & Hr & Hc & Ho & Hs).
    exists (c :: o0), segments. rewrite sub_copy by exact E.
    unfold raw, cleaned in *. cbn [app]. rewrite <- Hr, <- Hc.
    repeat split; [|exact Hs].
    apply outside_cons; [|exact Ho].
    unfold raw. cbn [app]. rewrite <- Hr. now apply no_match_no_span.
  - destruct IH as (o0 & segments & Hr & Hc & Ho & Hs).
    exists [], ((firstn (S n) s, o0) :: segments).
    rewrite (sub_replace _ _ s n E). unfold raw, cleaned in *.
    cbn [app flat_map fst snd]. rewrite <- !app_assoc, <- Hr, <- Hc.
    rewrite firstn_skipn. repeat split; [apply outside_nil| |exact Ho|exact Hs].
    now apply table_match_span.
Qed.

(** text outside the spans is copied by the scan *)
Lemma outside_copy o rest :
  outside o rest ->
  _clean_table_formatting (o ++ rest) = o ++ _clean_table_formatting rest.
Proof.
  unfold _clean_table_formatting. induction o as [|c o IH]; intros H.
  - reflexivity.
  - apply outside_head in H. destruct H as [Hc Ho]. cbn [app].
    rewrite sub_copy by (left; now apply no_span_no_match).
    now rewrite IH.
Qed.

(** a span at the head of the text is cleaned, and the scan goes on after
    it *)
Lemma span_replace t rest :
  is_span t ->
  _clean_table_formatting (t ++ rest)
  = clean_table_block t ++ _clean_table_formatting rest.
Proof.
  intros H. pose proof (span_match t rest H) as E.
  unfold _clean_table_formatting.
  destruct (length t) as [|n] eqn:El; [now apply table_nonempty in E|].
  rewrite (sub_replace _ _ _ n E). rewrite <- El.
  now rewrite firstn_length_app, skipn_app, skipn_all, Nat.sub_diag.
Qed.

(** whatever the cut of a text at its spans, the result is the cut with
    its spans cleaned *)
Lemma clean_table_formatting_of_cut o0 segments :
  cut_at_spans o0 segments ->
  _clean_table_formatting (raw o0 segments) = cleaned o0 segments.
Proof.
  intros [Ho Hs]. unfold raw at 1, cleaned at 1.
  change (flat_map (fun seg => fst seg ++ snd seg) segments)
    with (raw [] segments).
  rewrite (outside_copy _ _ Ho). f_equal. clear o0 Ho.
  change (_clean_table_formatting (raw [] segments) = cleaned [] segments).
  induction segments as [|[t o] segments IH]; [reflexivity|].
  destruct Hs as (Ht & Ho & Hs). cbn [fst snd] in Ht, Ho.
  unfold raw, cleaned. cbn [app flat_map fst snd]. rewrite <- !app_assoc.
  rewrite (span_replace _ _ Ht).
  change (flat_map (fun seg => fst seg ++ snd seg) segments)
    with (raw [] segments).
  rewrite (outside_copy _ _ Ho). now rewrite (IH Hs).
Qed.

Lemma has_span_tails s :
  has_span s -> existsb (matches table_pattern) (tails s) = true.
Proof.
  intros (a & body & b & ->). induction a as [|c a IH].
  - pose proof (table_match_complete body b) as H.
    destruct (open_tag ++ body ++ close_tag ++ b) as [|d t] eqn:E;
      [discriminate|].
    cbn [app tails existsb]. unfold matches at 1.
    now destruct (rmatch table_pattern (d :: t)).
  - cbn [app tails existsb]. rewrite IH. apply orb_true_r.
Qed.

Lemma clean_table_formatting_no_span text :
  ~ has_span text -> _clean_table_formatting text = text.
Proof.
  intros H. apply sub_fixed. intros a t n -> E. exfalso. apply H.
  apply table_match_sound in E. destruct E as (body & rest & -> & _).
  now exists a, body, rest.
Qed.

End TableFacts.

(** C9: [_clean_table_formatting] changes the [<table>...</table>] spans
    only.  Every text has a cut at its spans: the text before the first
    span, then each span (from a [<table>] to the first [</table>] after
    it) with the text that follows it up to the next span, no span starting
    in the texts outside.  Whatever such a cut of the text, the result is
    the same sequence with each span cleaned and each text outside as it
    was, character for character; and a text without any span is returned
    as it is. *)
Theorem clean_table_formatting_local (text : str) :
  (exists o0 segments,
      text = Table.raw o0 segments
      /\ _clean_table_formatting text = Table.cleaned o0 segments
      /\ Table.cut_at_spans o0 segments)
  /\ (forall o0 segments,
         text = Table.raw o0 segments ->
         Table.cut_at_spans o0 segments ->
         _clean_table_formatting text = Table.cleaned o0 segments)
  /\ (~ Table.has_span text -> _clean_table_formatting text = text).
Proof.
  split; [|split].
  - apply TableFacts.clean_table_formatting_cut.
  - intros o0 segments -> H.
    now apply TableFacts.clean_table_formatting_of_cut.
  - apply TableFacts.clean_table_formatting_no_span.
Qed.

(** ** White space after a tag *)

Module Tight.

Lemma tight_app_r a b : tight (a ++ b) = true -> tight b = true.
Proof.
  induction a as [|c a IH]; simpl; [auto|].
  intros H. apply andb_true_iff in H. tauto.
Qed.

Lemma tight_no_space s a c b :
  tight s = true -> s = a ++ [Char.gt; c] ++ b -> Char.is_space c = false.
Proof.
  intros H ->. apply tight_app_r in H. cbn [app tight starts_space] in H.
  rewrite eq_char_refl in H. cbn [negb orb] in H.
  apply andb_true_iff in H. destruct H as [H _]. now apply negb_true_iff.
Qed.

Lemma starts_space_drop_while s :
  starts_space (drop_while Char.is_space s) = false.
Proof.
  destruct (drop_while Char.is_space s) as [|d t] eqn:E; [reflexivity|].
  cbn. eapply drop_while_head, E.
Qed.

(** [>\s+] *)
Lemma after_tag_match c s :
  rmatch after_tag_pattern (c :: s)
  = if Char.eq_char Char.gt c
    then match take_while Char.is_space s with
         | [] => None
         | w => Some (S (length w))
         end
    else None.
Proof.
  cbn [after_tag_pattern rmatch one].
  destruct (Char.eq_char Char.gt c); [|reflexivity].
  destruct s as [|d s]; [reflexivity|]. cbn [take_while one].
  destruct (Char.is_space d); [|reflexivity].
  change (rmatch []) with (fun _ : str => Some O).
  now rewrite greedy_all.
Qed.

Lemma greedy_before_tag s :
  greedy Char.is_space (one (Char.eq_char Char.lt) (fun _ => Some O)) s
  = match drop_while Char.is_space s with
    | d :: _ =>
        if Char.eq_char Char.lt d
        then Some (S (length (take_while Char.is_space s))) else None
    | [] => None
    end.
Proof.
  induction s as [|c s IH]; [reflexivity|].
  cbn [greedy take_while drop_while].
  destruct (Char.is_space c) eqn:Hc.
  - rewrite IH. destruct (drop_while Char.is_space s) as [|d t].
    + cbn [one]. destruct (Char.eq_char Char.lt c) eqn:Hl; [|reflexivity].
      apply eq_char_true in Hl. now subst c.
    + destruct (Char.eq_char Char.lt d); [reflexivity|].
      cbn [one]. destruct (Char.eq_char Char.lt c) eqn:Hl; [|reflexivity].
      apply eq_char_true in Hl. now subst c.
  - cbn [one length]. now destruct (Char.eq_char Char.lt c).
Qed.

(** [\s+<] *)
Lemma before_tag_match c s :
  rmatch before_tag_pattern (c :: s)
  = if Char.is_space c
    then match drop_while Char.is_space s with
         | d :: _ =>
             if Char.eq_char Char.lt d
             then Some (S (S (length (take_while Char.is_space s))))
             else None
         | [] => None
         end
    else None.
Proof.
  cbn [before_tag_pattern rmatch one].
  destruct (Char.is_space c); [|reflexivity].
  change (rmatch []) with (fun _ : str => Some O).
  rewrite greedy_before_tag.
  destruct (drop_while Char.is_space s) as [|d t]; [reflexivity|].
  now destruct (Char.eq_char Char.lt d).
Qed.

Lemma one_nonempty p k s : one p k s <> Some O.
Proof.
  destruct s as [|c s]; cbn [one]; [discriminate|].
  destruct (p c); [|discriminate]. now destruct (k s).
Qed.

Lemma tag_break_nonempty s : rmatch tag_break_pattern s <> Some O.
Proof. apply one_nonempty. Qed.

Lemma row_end_nonempty s : rmatch row_end_pattern s <> Some O.
Proof. apply one_nonempty. Qed.

Lemma after_tag_nonempty s : rmatch after_tag_pattern s <> Some O.
Proof.
  destruct s as [|c s]; [discriminate|]. rewrite after_tag_match.
  destruct (Char.eq_char Char.gt c); [|discriminate].
  destruct (take_while Char.is_space s); discriminate.
Qed.

Lemma before_tag_nonempty s : rmatch before_tag_pattern s <> Some O.
Proof.
  destruct s as [|c s]; [discriminate|]. rewrite before_tag_match.
  destruct (Char.is_space c); [|discriminate].
  destruct (drop_while Char.is_space s) as [|d t]; [discriminate|].
  destruct (Char.eq_char Char.lt d); discriminate.
Qed.

Lemma sub_after_starts s :
  starts_space s = false -> starts_space (sub_after s) = false.
Proof.
  destruct s as [|d s]; [reflexivity|]. cbn [starts_space]. intros Hd.
  unfold sub_const.
  destruct (rmatch after_tag_pattern (d :: s)) as [[|n]|] eqn:E.
  - now apply after_tag_nonempty in E.
  - rewrite (sub_replace _ _ _ n E). reflexivity.
  - rewrite sub_copy by now left. exact Hd.
Qed.

Lemma sub_after_tight s : tight (sub_after s) = true.
Proof.
  unfold sub_const.
  induction s as [|c s E IH|s n E IH] using (sub_ind after_tag_pattern).
  - reflexivity.
  - rewrite sub_copy by exact E. cbn [tight]. rewrite IH, andb_true_r.
    destruct E as [E|E]; [|now apply after_tag_nonempty in E].
    rewrite after_tag_match in E.
    destruct (Char.eq_char Char.gt c); [|reflexivity]. cbn [negb orb].
    apply negb_true_iff. apply sub_after_starts.
    destruct s as [|d s]; [reflexivity|]. cbn [take_while starts_space] in *.
    now destruct (Char.is_space d).
  - rewrite (sub_replace _ _ s n E).
    destruct s as [|c u]; [discriminate|]. rewrite after_tag_match in E.
    destruct (Char.eq_char Char.gt c); [|discriminate].
    assert (En : n = length (take_while Char.is_space u)).
    { destruct (take_while Char.is_space u); [discriminate|].
      now injection E. }
    subst n. change (skipn (S ?k) (c :: u)) with (skipn k u) in *.
    rewrite <- drop_while_skipn in *.
    change (lit ">") with [Char.gt] in *. cbn [app tight].
    rewrite IH, andb_true_r, eq_char_refl. cbn [negb orb].
    apply negb_true_iff.
    apply (sub_after_starts _ (starts_space_drop_while u)).
Qed.

Lemma sub_before_starts s :
  starts_space s = false -> starts_space (sub_before s) = false.
Proof.
  destruct s as [|d s]; [reflexivity|]. cbn [starts_space]. intros Hd.
  unfold sub_const. rewrite sub_copy; [exact Hd|].
  left. rewrite before_tag_match. now rewrite Hd.
Qed.

Lemma sub_before_tight s : tight s = true -> tight (sub_before s) = true.
Proof.
  unfold sub_const.
  induction s as [|c s E IH|s n E IH] using (sub_ind before_tag_pattern);
    intros H.
  - reflexivity.
  - rewrite sub_copy by exact E. cbn [tight] in *.
    apply andb_true_iff in H. destruct H as [H1 H2].
    rewrite (IH H2), andb_true_r.
    destruct (Char.eq_char Char.gt c); [|reflexivity]. cbn [negb orb] in *.
    apply negb_true_iff. apply negb_true_iff in H1.
    now apply sub_before_starts.
  - rewrite (sub_replace _ _ s n E).
    change (lit "<") with [Char.lt] in *. cbn [app tight].
    rewrite IH; [reflexivity|].
    apply (tight_app_r (firstn (S n) s)). now rewrite firstn_skipn.
Qed.

(** in a cleaned table block no [>] is followed by white space; so no
    [</tr>] is followed by a newline *)
Lemma clean_table_block_tight t a c b :
  clean_table_block t = a ++ [Char.gt; c] ++ b -> Char.is_space c = false.
Proof.
  apply tight_no_space. unfold clean_table_block.
  apply sub_before_tight, sub_after_tight.
Qed.

End Tight.

(** C1 fails on the code: the newline that the substitution for [</tr>]
    leaves is removed by the substitution for [>\s+] after it.  A [</tr>]
    followed by white space in the table is followed by no newline in the
    result, whether a tag or text comes after it. *)
Theorem clean_table_formatting_row_end :
  _clean_table_formatting two_rows
  = lit "<table><tr><td>a</td></tr><tr><td>b</td></tr></table>"
  /\ _clean_table_formatting row_and_text
     = lit "<table><tr><td>a</td></tr>note</table>"
  /\ sub_const row_end_pattern (lit "</tr>" ++ [Char.nl])
       (sub_const tag_break_pattern (lit "><") row_and_text)
     = lit "<table><tr><td>a</td></tr>" ++ [Char.nl] ++ lit "note</table>".
Proof. repeat split; vm_compute; reflexivity. Qed.

Lemma clean_table_formatting_local_witness :
  _clean_table_formatting
    (lit "<table> a </table> x <table>b</table> y")
  = lit "<table>a</table> x <table>b</table> y"
  /\ _clean_table_formatting (lit "plain prose sentence.")
     = lit "plain prose sentence.".
Proof.
  split.
  - rewrite (proj1 (proj2 (clean_table_formatting_local
               (lit "<table> a </table> x <table>b</table> y")))
               []
               [(lit "<table> a </table>", lit " x ");
                (lit "<table>b</table>", lit " y")]).
    + vm_compute. reflexivity.
    + vm_compute. reflexivity.
    + split; [apply TableFacts.outside_nil|].
      cbn [Table.cut_segments fst snd]. repeat split.
      * exists (lit " a "). split; [reflexivity|].
        intros a b H. apply (f_equal (@length N)) in H.
        rewrite !length_app in H. cbn in H. lia.
      * apply TableFacts.outside_check. vm_compute. reflexivity.
      * exists (lit "b"). split; [reflexivity|].
        intros a b H. apply (f_equal (@length N)) in H.
        rewrite !length_app in H. cbn in H. lia.
      * apply TableFacts.outside_check. vm_compute. reflexivity.
  - apply (proj2 (proj2
             (clean_table_formatting_local (lit "plain prose sentence.")))).
    intros H. apply TableFacts.has_span_tails in H. vm_compute in H.
    discriminate.
Defined.

(** * Further properties of the code *)

(** ** A match is a text the pattern denotes *)

Module Sound.

Lemma one_sound p D k :
  sound D k ->
  sound (fun t => exists c t', t = c :: t' /\ p c = true /\ D t') (one p k).
Proof.
  intros Hk [|c s] n; cbn [one]; [discriminate|].
  destruct (p c) eqn:Hc; [|discriminate].
  destruct (k s) as [m|] eqn:E; [|discriminate].
  intros H; injection H as <-. exists c, (firstn m s). cbn [firstn]. auto.
Qed.

Lemma opt_sound p D k :
  sound D k ->
  sound (fun t => D t \/ exists c t', t = c :: t' /\ p c = true /\ D t')
    (opt p k).
Proof.
  intros Hk [|c s] n; cbn [opt]; [intros H; left; now apply Hk|].
  destruct (p c) eqn:Hc; [|intros H; left; now apply Hk].
  destruct (k s) as [m|] eqn:E; [|intros H; left; now apply Hk].
  intros H; injection H as <-. right. exists c, (firstn m s).
  cbn [firstn]. auto.
Qed.

Lemma greedy_sound p D k :
  sound D k ->
  sound (fun t => exists w t', t = w ++ t' /\ forallb p w = true /\ D t')
    (greedy p k).
Proof.
  intros Hk s. induction s as [|c s IH]; intros n; cbn [greedy].
  - intros H. exists [], (firstn n []). auto.
  - destruct (p c) eqn:Hc;
      [|intros H; exists [], (firstn n (c :: s)); auto].
    destruct (greedy p k s) as [m|] eqn:E;
      [|intros H; exists [], (firstn n (c :: s)); auto].
    intros H; injection H as <-.
    destruct (IH m eq_refl) as (w & t' & Et & Hw & Ht).
    exists (c :: w), t'. cbn [firstn app forallb]. rewrite Et, Hc. auto.
Qed.

Lemma lazy_item_sound p D k :
  sound D k ->
  sound (fun t => exists w t', t = w ++ t' /\ forallb p w = true /\ D t')
    (lazy p k).
Proof.
  intros Hk s. induction s as [|c s IH]; intros n; cbn [lazy].
  - destruct (k []) as [m|] eqn:E; [|discriminate].
    intros H; injection H as <-. exists [], (firstn m []). auto.
  - destruct (k (c :: s)) as [m|] eqn:E.
    + intros H; injection H as <-. exists [], (firstn m (c :: s)). auto.
    + destruct (p c) eqn:Hc; [|discriminate].
      destruct (lazy p k s) as [m|] eqn:El; [|discriminate].
      intros H; injection H as <-.
      destruct (IH m eq_refl) as (w & t' & Et & Hw & Ht).
      exists (c :: w), t'. cbn [firstn app forallb]. rewrite Et, Hc. auto.
Qed.

Lemma eos_sound D k : sound D k -> sound D (eos k).
Proof.
  intros Hk [|c [|d s]] n; cbn [eos]; [apply Hk| |discriminate].
  destruct (Char.eq_char Char.nl c); [apply Hk | discriminate].
Qed.

Lemma rmatch_sound r : sound (denotes r) (rmatch r).
Proof.
  induction r as [|it r IH].
  - intros s n H. injection H as <-. reflexivity.
  - destruct it; cbn [rmatch denotes].
    + now apply one_sound.
    + now apply opt_sound.
    + now apply greedy_sound.
    + intros s n H. apply (one_sound p _ _ (greedy_sound p _ _ IH)) in H.
      destruct H as (c & t1 & E & Hc & w & t' & -> & Hw & Ht).
      exists c, w, t'. auto.
    + now apply lazy_item_sound.
    + now apply eos_sound.
Qed.

Lemma denotes_chars w r t :
  denotes (chars w ++ r) t -> exists t', t = w ++ t' /\ denotes r t'.
Proof.
  revert t. induction w as [|a w IH]; intros t; cbn [chars map app denotes].
  - eauto.
  - intros (c & t1 & -> & Hc & H). apply eq_char_true in Hc. subst c.
    destruct (IH _ H) as (t' & -> & Ht). eauto.
Qed.

Section Scan.
Variable r : regex.
Variable repl : str -> str.

Lemma match_denotes s n :
  rmatch r s = Some n -> denotes r (firstn n s) /\ length (firstn n s) = n.
Proof.
  intros H. split; [now apply rmatch_sound|].
  apply firstn_length_le. now apply (rmatch_bounded r).
Qed.

(** a scan that replaces each match by a text with the same kept characters
    keeps them all *)
Lemma sub_filter (keep : N -> bool) s :
  (forall t, denotes r t -> List.filter keep (repl t) = List.filter keep t) ->
  List.filter keep (sub r repl s) = List.filter keep s.
Proof.
  intros H. induction s as [|c s E IH|s n E IH] using (sub_ind r).
  - reflexivity.
  - rewrite sub_copy by exact E. cbn [List.filter]. now rewrite IH.
  - rewrite (sub_replace _ _ s n E). rewrite <- (firstn_skipn (S n) s) at 3.
    rewrite !List.filter_app, IH. f_equal. apply H.
    now apply match_denotes.
Qed.

(** a scan that replaces each match by a text no longer than it does not
    lengthen the string *)
Lemma sub_length s :
  (forall t, denotes r t -> (length (repl t) <= length t)%nat) ->
  (length (sub r repl s) <= length s)%nat.
Proof.
  intros H. induction s as [|c s E IH|s n E IH] using (sub_ind r).
  - reflexivity.
  - rewrite sub_copy by exact E. cbn [length]. lia.
  - rewrite (sub_replace _ _ s n E). rewrite <- (firstn_skipn (S n) s) at 3.
    rewrite !length_app. destruct (match_denotes s (S n) E) as [Hd _].
    specialize (H _ Hd). lia.
Qed.
End Scan.

End Sound.

(** ** [_clean_text] keeps the visible characters *)

Lemma visible_space c : Char.is_space c = true -> visible c = false.
Proof. unfold visible. now intros ->. Qed.

Lemma visible_control c : Char.is_control c = true -> visible c = false.
Proof. unfold visible. intros ->. apply andb_false_r. Qed.

Lemma filter_none {A} (keep p : A -> bool) (w : list A) :
  (forall c, p c = true -> keep c = false) ->
  forallb p w = true -> List.filter keep w = [].
Proof.
  intros H. induction w as [|c w IH]; cbn; [reflexivity|].
  intros Hw. apply andb_true_iff in Hw. destruct Hw as [Hc Hw].
  now rewrite (H c Hc), IH.
Qed.

Lemma filter_visible_blank w : blank w = true -> List.filter visible w = [].
Proof. apply filter_none, visible_space. Qed.

Lemma filter_solid_blank w : blank w = true -> List.filter solid w = [].
Proof.
  apply filter_none. unfold solid. now intros c ->.
Qed.

Lemma strip_filter (keep : N -> bool) s :
  (forall c, Char.is_space c = true -> keep c = false) ->
  List.filter keep (strip s) = List.filter keep s.
Proof.
  intros H. destruct (strip_split s) as (a & b & E & Ha & Hb).
  rewrite E at 2. rewrite !List.filter_app.
  rewrite (filter_none keep _ a H Ha), (filter_none keep _ b H Hb).
  now rewrite app_nil_r.
Qed.

Lemma blank_of_blanks w :
  forallb Char.is_blank w = true -> blank w = true.
Proof.
  unfold blank. induction w as [|c w IH]; cbn; [reflexivity|].
  intros H. apply andb_true_iff in H. destruct H as [Hc Hw].
  rewrite IH by exact Hw. cbn. rewrite andb_true_r.
  unfold Char.is_blank in Hc. apply orb_true_iff in Hc.
  destruct Hc as [Hc|Hc]; apply eq_char_true in Hc; now subst.
Qed.

(** the matches of the three patterns of [_clean_text] *)
Lemma control_denotes t :
  denotes control_pattern t -> exists c, t = [c] /\ Char.is_control c = true.
Proof. intros (c & t' & -> & Hc & ->). eauto. Qed.

Lemma blanks_denotes t :
  denotes blanks_pattern t -> t <> [] /\ blank t = true.
Proof.
  intros (c & w & t' & -> & Hc & Hw & ->). split; [discriminate|].
  rewrite app_nil_r. apply (blank_of_blanks (c :: w)).
  cbn [forallb]. now rewrite Hc, Hw.
Qed.

Lemma blank_lines_denotes t :
  denotes blank_lines_pattern t ->
  (2 <= length t)%nat /\ blank t = true.
Proof.
  intros (c & t1 & -> & Hc & w & t2 & -> & Hw & d & t3 & -> & Hd & ->).
  split; [cbn; rewrite length_app; cbn; lia|].
  apply nl_is_space in Hc, Hd. unfold blank in *. cbn [forallb].
  rewrite forallb_app. cbn [forallb]. now rewrite Hc, Hw, Hd.
Qed.

Lemma clean_text_filter_visible (x : str) :
  List.filter visible (_clean_text x) = List.filter visible x.
Proof.
  unfold _clean_text. rewrite strip_filter by exact visible_space.
  unfold sub_const. rewrite !Sound.sub_filter; [reflexivity| | |].
  - intros t H. apply control_denotes in H. destruct H as (c & -> & Hc).
    cbn. now rewrite (visible_control c Hc).
  - intros t H. apply blanks_denotes in H. destruct H as [_ H].
    now rewrite (filter_visible_blank t H).
  - intros t H. apply blank_lines_denotes in H. destruct H as [_ H].
    now rewrite (filter_visible_blank t H).
Qed.

(** X1: [_clean_text] neither deletes nor reorders nor adds a visible
    character: the characters of the result that are neither white space nor
    control characters are those of the input, in the same order. *)
Theorem clean_text_keeps_visible (x : str) :
  List.filter visible (_clean_text x) = List.filter visible x.
Proof. apply clean_text_filter_visible. Qed.

(** X2: [_clean_text] never lengthens a text. *)
Theorem clean_text_length (x : str) :
  (length (_clean_text x) <= length x)%nat.
Proof.
  unfold _clean_text. etransitivity; [apply strip_length|].
  unfold sub_const.
  etransitivity; [apply Sound.sub_length|].
  { intros t H. now apply blank_lines_denotes in H. }
  etransitivity; [apply Sound.sub_length|].
  { intros t H. apply blanks_denotes in H. destruct t; cbn; [tauto | lia]. }
  apply Sound.sub_length. intros t H. cbn. lia.
Qed.

Lemma filter_nil_all {A} (keep : A -> bool) (l : list A) c :
  List.filter keep l = [] -> In c l -> keep c = false.
Proof.
  induction l as [|d l IH]; cbn; [tauto|].
  destruct (keep d) eqn:E; [discriminate|].
  intros H [<-|Hc]; auto.
Qed.

Lemma clean_text_nil_iff (x : str) :
  _clean_text x = [] <-> List.filter visible x = [].
Proof.
  rewrite <- clean_text_filter_visible. split; [now intros ->|].
  intros H. destruct (clean_text_normal x) as (Hc & _ & _ & Hs).
  rewrite <- Hs. apply strip_nil. unfold blank. apply forallb_forall.
  intros c Hin. pose proof (filter_nil_all _ _ c H Hin) as Hv.
  unfold visible in Hv. rewrite (Hc c Hin) in Hv. cbn in Hv.
  rewrite andb_true_r in Hv. now apply negb_false_iff.
Qed.

(** X3: [_clean_text] gives the empty string exactly for the texts without
    visible character (the empty text, white space, control characters). *)
Theorem clean_text_empty (x : str) :
  _clean_text x = [] <-> List.filter visible x = [].
Proof. apply clean_text_nil_iff. Qed.

Lemma spaced_blank_is_space s c :
  spaced s = true -> In c s -> Char.is_blank c = true -> c = Char.space.
Proof.
  induction s as [|d s IH]; cbn [spaced In]; [tauto|].
  intros H. apply andb_true_iff in H. destruct H as [H1 H2].
  intros [<-|Hin] Hc; [|now apply IH].
  rewrite Hc in H1. cbn in H1. apply andb_true_iff in H1.
  now apply eq_char_true.
Qed.

(** X4: the result of [_clean_text] has no tab character, and neither starts
    nor ends with white space. *)
Theorem clean_text_trimmed (x : str) :
  (forall c, In c (_clean_text x) -> c <> Char.tab)
  /\ (forall c t, _clean_text x = c :: t -> Char.is_space c = false)
  /\ (forall t c, _clean_text x = t ++ [c] -> Char.is_space c = false).
Proof.
  destruct (clean_text_normal x) as (_ & Hsp & _ & Hs). repeat split.
  - intros c Hin ->.
    now pose proof (spaced_blank_is_space _ _ Hsp Hin eq_refl).
  - intros c t E. apply (lstrip_head (_clean_text x) c t).
    now rewrite <- Hs, lstrip_strip, Hs.
  - intros t c E. assert (Hr : rstrip (_clean_text x) <> []).
    { rewrite <- Hs, rstrip_strip, Hs, E. now destruct t. }
    destruct (rstrip_ends _ Hr) as (t' & c' & E' & Hc').
    rewrite <- Hs, rstrip_strip, Hs, E in E'.
    apply app_inj_tail in E'. destruct E' as [_ ->]. exact Hc'.
Qed.

(** ** More on the merge of small sections *)

Lemma merge_pass_step min_chunk_size x y l :
  merge_pass min_chunk_size (x :: y :: l)
  = if small min_chunk_size x
    then (x ++ [Char.nl; Char.nl] ++ y) :: merge_pass min_chunk_size l
    else x :: merge_pass min_chunk_size (y :: l).
Proof. reflexivity. Qed.

(** X5: [_merge_small_chunks] returns at most as many sections as it is
    given, and at least half as many. *)
Theorem merge_small_chunks_length (sections : list str) (min_chunk_size : Z) :
  (length (_merge_small_chunks sections min_chunk_size) <= length sections)%nat
  /\ (length sections
      <= 2 * length (_merge_small_chunks sections min_chunk_size))%nat.
Proof.
  rewrite merge_small_chunks_pass.
  induction sections as [|x|x y l IH1 IH2] using list_pair_ind.
  - cbn. lia.
  - cbn. lia.
  - rewrite merge_pass_step. destruct (small min_chunk_size x); cbn [length] in *; lia.
Qed.

Lemma join_blank_cons s l :
  l <> [] -> join_blank (s :: l) = s ++ [Char.nl; Char.nl] ++ join_blank l.
Proof. now destruct l. Qed.

Lemma merge_pass_nonempty min_chunk_size l :
  l <> [] -> merge_pass min_chunk_size l <> [].
Proof.
  destruct l as [|x [|y l]]; [easy | easy |]. intros _.
  rewrite merge_pass_step. now destruct (small min_chunk_size x).
Qed.

(** X6: joined by blank lines, the sections [_merge_small_chunks] returns
    are the text of the sections it is given: the merge moves the limits
    between sections and changes no text. *)
Theorem merge_small_chunks_join (sections : list str) (min_chunk_size : Z) :
  join_blank (_merge_small_chunks sections min_chunk_size)
  = join_blank sections.
Proof.
  rewrite merge_small_chunks_pass.
  induction sections as [|x|x y l IH1 IH2] using list_pair_ind.
  - reflexivity.
  - reflexivity.
  - rewrite merge_pass_step.
    rewrite (join_blank_cons x (y :: l)) by discriminate.
    destruct (small min_chunk_size x).
    + destruct l as [|z l]; [reflexivity|].
      rewrite join_blank_cons by (apply merge_pass_nonempty; discriminate).
      rewrite IH1, (join_blank_cons y (z :: l)) by discriminate.
      now rewrite <- !app_assoc.
    + rewrite join_blank_cons by (apply merge_pass_nonempty; discriminate).
      now rewrite IH2.
Qed.

(** X7: [_merge_small_chunks] returns the sections unchanged exactly when no
    section but the last is small; in particular for a threshold of 0 or
    less. *)
Theorem merge_small_chunks_unchanged
    (sections : list str) (min_chunk_size : Z) :
  (_merge_small_chunks sections min_chunk_size = sections
   <-> forall s, In s (removelast sections) -> small min_chunk_size s = false)
  /\ ((min_chunk_size <= 0)%Z ->
      _merge_small_chunks sections min_chunk_size = sections).
Proof.
  rewrite merge_small_chunks_pass.
  assert (Hiff : merge_pass min_chunk_size sections = sections
                 <-> forall s, In s (removelast sections) ->
                               small min_chunk_size s = false).
  { induction sections as [|x|x y l IH1 IH2] using list_pair_ind.
    - cbn. tauto.
    - cbn. tauto.
    - rewrite merge_pass_step. change (removelast (x :: y :: l))
        with (x :: removelast (y :: l)).
      destruct (small min_chunk_size x) eqn:Hx.
      + split.
        * intros H. injection H as H _. apply (f_equal (@length N)) in H.
          rewrite !length_app in H. cbn in H. lia.
        * intros H. specialize (H x (or_introl eq_refl)). congruence.
      + split.
        * intros H. injection H as H. intros s [<-|Hs]; [exact Hx|].
          now apply IH2.
        * intros H. f_equal. apply IH2. intros s Hs. apply H. now right. }
  split; [exact Hiff|]. intros Hmin. apply Hiff. intros s _.
  unfold small. apply Z.ltb_ge. lia.
Qed.

Lemma merge_small_chunks_unchanged_witness :
  _merge_small_chunks [lit "# A"; lit "# B"] 0 = [lit "# A"; lit "# B"].
Proof.
  apply (proj2 (merge_small_chunks_unchanged [lit "# A"; lit "# B"] 0)).
  lia.
Defined.

(** ** More on the sections of [_split_by_headers_manual] *)

Lemma split_nl_nonempty s : split_nl s <> [].
Proof.
  destruct s as [|c s]; cbn [split_nl]; [discriminate|].
  destruct (Char.eq_char Char.nl c); [discriminate|].
  now destruct (split_nl s).
Qed.

(** ['\n'.join(s.split('\n'))] is [s] *)
Lemma join_split_nl s : join_nl (split_nl s) = s.
Proof.
  induction s as [|c s IH]; [reflexivity|]. cbn [split_nl].
  pose proof (split_nl_nonempty s) as Hne.
  destruct (Char.eq_char Char.nl c) eqn:Hc.
  - apply eq_char_true in Hc. subst c.
    destruct (split_nl s) as [|l ls]; [easy|]. cbn [join_nl app].
    cbn [join_nl] in IH. now rewrite IH.
  - destruct (split_nl s) as [|l ls]; [easy|].
    rewrite <- IH. destruct ls; reflexivity.
Qed.

Lemma fold_header_step_plain lines sections current_section :
  (forall line, In line lines -> is_header (strip line) = false) ->
  fold_left header_step lines (sections, current_section)
  = (sections, current_section ++ lines).
Proof.
  revert current_section. induction lines as [|l lines IH]; intros cur H.
  - now rewrite app_nil_r.
  - cbn [fold_left header_step]. rewrite (H l (or_introl eq_refl)).
    rewrite IH by (intros line Hl; apply H; now right).
    now rewrite <- app_assoc.
Qed.

(** X8: a text without heading line gives one section, the stripped text,
    or none if the text is blank. *)
Theorem split_by_headers_no_heading (text : str) :
  (forall line, In line (split_nl text) -> is_header (strip line) = false) ->
  _split_by_headers_manual text
  = if nonempty (strip text) then [strip text] else [].
Proof.
  intros H. unfold _split_by_headers_manual.
  rewrite (fold_header_step_plain _ [] [] H). cbn [app].
  unfold close_section. pose proof (split_nl_nonempty text) as Hne.
  destruct (split_nl text) as [|l ls] eqn:E; [easy|].
  rewrite <- E, join_split_nl. reflexivity.
Qed.

Lemma split_by_headers_no_heading_witness :
  _split_by_headers_manual (lit " plain prose sentence. ")
  = if nonempty (strip (lit " plain prose sentence. "))
    then [strip (lit " plain prose sentence. ")] else [].
Proof.
  apply (split_by_headers_no_heading (lit " plain prose sentence. ")).
  intros line [<-|[]]. vm_compute. reflexivity.
Defined.

Lemma close_section_trimmed sections current_section :
  Forall trimmed sections ->
  Forall trimmed (close_section sections current_section)
  /\ (length (close_section sections current_section)
      <= S (length sections))%nat.
Proof.
  intros H. unfold close_section.
  destruct current_section as [|l ls]; [split; [exact H | lia]|].
  destruct (nonempty (strip (join_nl (l :: ls)))) eqn:E;
    [|split; [exact H | lia]].
  split; [|rewrite length_app; cbn; lia].
  apply Forall_app. split; [exact H|]. constructor; [|constructor].
  split; [now apply nonempty_true | apply strip_idem].
Qed.

Lemma fold_header_step_trimmed lines st :
  Forall trimmed (fst st) ->
  Forall trimmed (fst (fold_left header_step lines st))
  /\ (length (fst (fold_left header_step lines st))
      <= length (fst st) + count_headers lines)%nat.
Proof.
  revert st. induction lines as [|l lines IH]; intros st H.
  - split; [exact H | cbn; lia].
  - cbn [fold_left]. destruct st as [sections current_section].
    unfold count_headers. cbn [List.filter]. unfold header_step at 2 4.
    destruct (is_header (strip l)); cbn [fst] in *.
    + destruct (close_section_trimmed sections current_section H) as [Hc Hl].
      destruct (IH (close_section sections current_section, [l]) Hc)
        as [IH1 IH2].
      split; [exact IH1|]. cbn [fst length] in *. unfold count_headers in IH2.
      lia.
    + destruct (IH (sections, current_section ++ [l]) H) as [IH1 IH2].
      split; [exact IH1|]. cbn [fst] in *. exact IH2.
Qed.

(** X9: every section of [_split_by_headers_manual] is a stripped text that
    is not empty, and there is at most one section more than there are
    heading lines. *)
Theorem split_by_headers_sections (text : str) :
  Forall (fun section => section <> [] /\ strip section = section)
    (_split_by_headers_manual text)
  /\ (length (_split_by_headers_manual text)
      <= S (count_headers (split_nl text)))%nat.
Proof.
  unfold _split_by_headers_manual.
  destruct (fold_header_step_trimmed (split_nl text) ([], [])
              (List.Forall_nil _)) as [H1 H2].
  destruct (fold_left header_step (split_nl text) ([], []))
    as [sections current_section].
  cbn [fst length] in *.
  destruct (close_section_trimmed sections current_section H1) as [Hc Hl].
  split; [exact Hc | lia].
Qed.

Lemma filter_solid_join lines :
  List.filter solid (join_nl lines)
  = List.concat (map (List.filter solid) lines).
Proof.
  induction lines as [|l ls IH]; [reflexivity|].
  destruct ls as [|l' ls]; [cbn; now rewrite app_nil_r|].
  change (join_nl (l :: l' :: ls)) with (l ++ Char.nl :: join_nl (l' :: ls)).
  rewrite List.filter_app. cbn [List.filter]. change (solid Char.nl) with false.
  cbv iota. rewrite IH. reflexivity.
Qed.

Lemma close_section_solid sections current_section :
  List.filter solid (List.concat (close_section sections current_section))
  = List.filter solid (List.concat sections)
    ++ List.concat (map (List.filter solid) current_section).
Proof.
  unfold close_section. destruct current_section as [|l ls];
    [cbn; now rewrite app_nil_r|].
  rewrite <- filter_solid_join.
  rewrite <- (strip_filter solid (join_nl (l :: ls)))
    by (unfold solid; now intros c ->).
  destruct (strip (join_nl (l :: ls))) as [|c t]; cbn [nonempty].
  - cbn. now rewrite app_nil_r.
  - rewrite concat_app, List.filter_app. cbn [List.concat].
    now rewrite app_nil_r.
Qed.

Lemma header_step_solid st line :
  let kept st :=
    List.filter solid (List.concat (fst st))
    ++ List.concat (map (List.filter solid) (snd st)) in
  kept (header_step st line) = kept st ++ List.filter solid line.
Proof.
  destruct st as [sections current_section]. cbv zeta. unfold header_step.
  destruct (is_header (strip line)); cbn [fst snd].
  - rewrite close_section_solid. cbn. now rewrite app_nil_r, <- app_assoc.
  - rewrite map_app, concat_app. cbn. now rewrite app_nil_r, <- app_assoc.
Qed.

Lemma fold_header_step_solid lines st :
  let kept st :=
    List.filter solid (List.concat (fst st))
    ++ List.concat (map (List.filter solid) (snd st)) in
  kept (fold_left header_step lines st)
  = kept st ++ List.concat (map (List.filter solid) lines).
Proof.
  cbv zeta. revert st. induction lines as [|l lines IH]; intros st.
  - cbn. now rewrite app_nil_r.
  - cbn [fold_left map List.concat]. rewrite IH.
    rewrite (header_step_solid st l). now rewrite <- app_assoc.
Qed.

Lemma split_by_headers_filter_solid (text : str) :
  List.filter solid (List.concat (_split_by_headers_manual text))
  = List.filter solid text.
Proof.
  unfold _split_by_headers_manual.
  pose proof (fold_header_step_solid (split_nl text) ([], [])) as H.
  cbv zeta in H.
  destruct (fold_left header_step (split_nl text) ([], []))
    as [sections current_section].
  rewrite close_section_solid. cbn [fst snd] in H. rewrite H.
  cbn [List.concat List.filter map app].
  now rewrite <- filter_solid_join, join_split_nl.
Qed.

(** X10: the sections of [_split_by_headers_manual], one after the other,
    have the characters of the text that are not white space, in the same
    order: the segmentation loses, adds and moves white space only. *)
Theorem split_by_headers_keeps_solid (text : str) :
  List.filter solid (List.concat (_split_by_headers_manual text))
  = List.filter solid text.
Proof. apply split_by_headers_filter_solid. Qed.

(** ** More on the cleaning of table blocks *)

Module TableText.

Ltac filter_parts :=
  repeat first
    [ rewrite List.filter_app
    | rewrite app_nil_r
    | progress (cbn [List.filter app]) ].

Lemma tag_break_denotes t :
  denotes tag_break_pattern t ->
  List.filter solid t = [Char.gt; Char.lt]
  /\ exists d u, t = Char.gt :: d :: u /\ Char.is_space d = true.
Proof.
  intros (c & t1 & -> & Hc & w1 & t2 & -> & Hw1 & d & t3 & -> & Hd
          & w2 & t4 & -> & Hw2 & e & t5 & -> & He & Hnil).
  cbn [denotes] in Hnil. subst t5.
  apply eq_char_true in Hc, Hd, He. subst c d e. split.
  - filter_parts.
    rewrite (filter_solid_blank w1 Hw1), (filter_solid_blank w2 Hw2).
    reflexivity.
  - destruct w1 as [|d w1]; cbn [app].
    + eexists _, _. split; reflexivity.
    + cbn [forallb] in Hw1. apply andb_true_iff in Hw1.
      eexists _, _. split; [reflexivity | tauto].
Qed.

Lemma row_end_denotes t :
  denotes row_end_pattern t ->
  List.filter solid t = lit "</tr>"
  /\ exists d u, t = lit "</tr>" ++ d :: u /\ Char.is_space d = true.
Proof.
  intros H. apply Sound.denotes_chars in H.
  destruct H as (t' & -> & w1 & t2 & -> & Hw1 & d & t3 & -> & Hd
                 & w2 & t4 & -> & Hw2 & Hnil).
  cbn [denotes] in Hnil. subst t4.
  apply eq_char_true in Hd. subst d. split.
  - filter_parts.
    rewrite (filter_solid_blank w1 Hw1), (filter_solid_blank w2 Hw2).
    reflexivity.
  - destruct w1 as [|d w1]; cbn [app].
    + eexists _, _. split; reflexivity.
    + cbn [forallb] in Hw1. apply andb_true_iff in Hw1.
      eexists _, _. split; [reflexivity | tauto].
Qed.

Lemma after_tag_denotes t :
  denotes after_tag_pattern t ->
  List.filter solid t = [Char.gt]
  /\ exists d u, t = Char.gt :: d :: u /\ Char.is_space d = true.
Proof.
  intros (c & t1 & -> & Hc & d & w & t2 & -> & Hd & Hw & Hnil).
  cbn [denotes] in Hnil. subst t2.
  apply eq_char_true in Hc. subst c. split.
  - filter_parts. rewrite (filter_solid_blank w Hw).
    unfold solid at 2. rewrite Hd. reflexivity.
  - eauto.
Qed.

Lemma before_tag_denotes t :
  denotes before_tag_pattern t ->
  List.filter solid t = [Char.lt]
  /\ exists w d, t = w ++ [d; Char.lt] /\ Char.is_space d = true.
Proof.
  intros (c & w & t1 & -> & Hc & Hw & e & t2 & -> & He & Hnil).
  cbn [denotes] in Hnil. subst t2.
  apply eq_char_true in He. subst e. split.
  - filter_parts. rewrite (filter_solid_blank w Hw).
    unfold solid at 1. rewrite Hc. reflexivity.
  - destruct (exists_last (l := c :: w)) as (w' & d & E); [discriminate|].
    exists w', d. split.
    + change (c :: w ++ [Char.lt]) with ((c :: w) ++ [Char.lt]).
      rewrite E, <- app_assoc. reflexivity.
    + assert (Hall : forallb Char.is_space (c :: w) = true)
        by (cbn [forallb]; now rewrite Hc, Hw).
      rewrite E, forallb_app in Hall. cbn in Hall.
      apply andb_true_iff in Hall. destruct Hall as [_ Hd].
      now rewrite andb_true_r in Hd.
Qed.

Lemma clean_table_block_solid t :
  List.filter solid (clean_table_block t) = List.filter solid t.
Proof.
  unfold clean_table_block, sub_const.
  rewrite !Sound.sub_filter; [reflexivity| | | |].
  - intros u H. now apply tag_break_denotes in H as [-> _].
  - intros u H. now apply row_end_denotes in H as [-> _].
  - intros u H. now apply after_tag_denotes in H as [-> _].
  - intros u H. now apply before_tag_denotes in H as [-> _].
Qed.

Lemma snug_app_r a b : snug (a ++ b) = true -> snug b = true.
Proof.
  induction a as [|c a IH]; cbn [app snug]; [auto|].
  intros H. apply andb_true_iff in H. tauto.
Qed.

Lemma snug_pair s a c b :
  snug s = true -> s = a ++ [c; Char.lt] ++ b -> Char.is_space c = false.
Proof.
  intros H ->. apply snug_app_r in H. cbn [app snug] in H.
  rewrite eq_char_refl in H. cbn [negb] in H. rewrite orb_false_r in H.
  apply andb_true_iff in H. destruct H as [H _]. now apply negb_true_iff.
Qed.

Lemma sub_before_snug s : snug (sub_before s) = true.
Proof.
  unfold sub_const.
  induction s as [|c s E IH|s n E IH] using (sub_ind before_tag_pattern).
  - reflexivity.
  - rewrite sub_copy by exact E. cbn [snug]. rewrite IH, andb_true_r.
    destruct (Char.is_space c) eqn:Hc; [|reflexivity]. cbn [negb orb].
    destruct E as [E|E]; [|now apply Tight.before_tag_nonempty in E].
    rewrite Tight.before_tag_match, Hc in E.
    destruct s as [|d s]; [reflexivity|].
    destruct (Char.is_space d) eqn:Hd.
    + (* the run goes on: no match at the next position either *)
      cbn [drop_while] in E. rewrite Hd in E.
      rewrite sub_copy.
      * destruct (Char.eq_char Char.lt d) eqn:Hl; [|reflexivity].
        apply eq_char_true in Hl. now subst d.
      * left. rewrite Tight.before_tag_match, Hd.
        destruct (drop_while Char.is_space s) as [|e u]; [reflexivity|].
        now destruct (Char.eq_char Char.lt e).
    + cbn [drop_while] in E. rewrite Hd in E.
      rewrite sub_copy.
      * destruct (Char.eq_char Char.lt d); [discriminate | reflexivity].
      * left. rewrite Tight.before_tag_match. now rewrite Hd.
  - rewrite (sub_replace _ _ s n E).
    change (lit "<") with [Char.lt] in *. cbn [app snug].
    now rewrite IH.
Qed.

Lemma clean_table_block_snug t : snug (clean_table_block t) = true.
Proof. unfold clean_table_block. apply sub_before_snug. Qed.

Lemma clean_table_block_is_tight t : tight (clean_table_block t) = true.
Proof.
  unfold clean_table_block. apply Tight.sub_before_tight, Tight.sub_after_tight.
Qed.

(** a tight and snug text has no match of the four patterns *)
Lemma tight_no_gt_space s a d u :
  tight s = true -> s = a ++ Char.gt :: d :: u -> Char.is_space d = false.
Proof. intros H E. now apply (Tight.tight_no_space s a d u H). Qed.

Lemma fixed_block s :
  tight s = true -> snug s = true -> clean_table_block s = s.
Proof.
  intros Ht Hs. unfold clean_table_block, sub_const.
  assert (H1 : sub tag_break_pattern (fun _ => lit "><") s = s).
  { apply sub_fixed. intros a t n -> E. exfalso.
    destruct (Sound.match_denotes _ _ _ E) as [Hd _].
    apply tag_break_denotes in Hd. destruct Hd as (_ & d & u & Ed & Hd).
    rewrite <- (firstn_skipn (S n) t), Ed in Ht.
    rewrite (tight_no_gt_space _ a d (u ++ skipn (S n) t) Ht) in Hd;
      [discriminate | reflexivity]. }
  rewrite H1.
  assert (H2 : sub row_end_pattern (fun _ => lit "</tr>" ++ [Char.nl]) s = s).
  { apply sub_fixed. intros a t n -> E. exfalso.
    destruct (Sound.match_denotes _ _ _ E) as [Hd _].
    apply row_end_denotes in Hd. destruct Hd as (_ & d & u & Ed & Hd).
    rewrite <- (firstn_skipn (S n) t), Ed in Ht.
    rewrite (tight_no_gt_space _ (a ++ lit "</tr") d (u ++ skipn (S n) t) Ht)
      in Hd; [discriminate|].
    rewrite <- !app_assoc. reflexivity. }
  rewrite H2.
  assert (H3 : sub after_tag_pattern (fun _ => lit ">") s = s).
  { apply sub_fixed. intros a t n -> E. exfalso.
    destruct (Sound.match_denotes _ _ _ E) as [Hd _].
    apply after_tag_denotes in Hd. destruct Hd as (_ & d & u & Ed & Hd).
    rewrite <- (firstn_skipn (S n) t), Ed in Ht.
    rewrite (tight_no_gt_space _ a d (u ++ skipn (S n) t) Ht) in Hd;
      [discriminate | reflexivity]. }
  rewrite H3.
  apply sub_fixed. intros a t n -> E. exfalso.
  destruct (Sound.match_denotes _ _ _ E) as [Hd _].
  apply before_tag_denotes in Hd. destruct Hd as (_ & w & d & Ed & Hd).
  rewrite <- (firstn_skipn (S n) t), Ed in Hs.
  rewrite (snug_pair _ (a ++ w) d (skipn (S n) t) Hs) in Hd;
    [discriminate|].
  rewrite <- !app_assoc. reflexivity.
Qed.

End TableText.

Lemma clean_table_formatting_filter_solid (text : str) :
  List.filter solid (_clean_table_formatting text) = List.filter solid text.
Proof.
  unfold _clean_table_formatting. apply Sound.sub_filter.
  intros t _. apply TableText.clean_table_block_solid.
Qed.

(** X11: [_clean_table_formatting] loses, adds and moves white space only:
    the characters of the result that are not white space are those of the
    text, in the same order. *)
Theorem clean_table_formatting_keeps_solid (text : str) :
  List.filter solid (_clean_table_formatting text) = List.filter solid text.
Proof. apply clean_table_formatting_filter_solid. Qed.

(** X12: in a table block cleaned by [_clean_table_formatting] no [>] is
    followed by white space and no [<] is preceded by white space. *)
Theorem clean_table_block_tags (t a : str) (c d : N) (b : str) :
  clean_table_block t = a ++ [c; d] ++ b ->
  ~ (c = Char.gt /\ Char.is_space d = true)
  /\ ~ (Char.is_space c = true /\ d = Char.lt).
Proof.
  intros E. split.
  - intros [-> Hd].
    rewrite (Tight.tight_no_space _ a d b
               (TableText.clean_table_block_is_tight t) E) in Hd.
    discriminate.
  - intros [Hc ->].
    rewrite (TableText.snug_pair _ a c b
               (TableText.clean_table_block_snug t) E) in Hc.
    discriminate.
Qed.

Lemma clean_table_block_tags_witness :
  ~ (Char.gt = Char.gt /\ Char.is_space Char.lt = true)
  /\ ~ (Char.is_space Char.gt = true /\ Char.lt = Char.lt).
Proof.
  apply (clean_table_block_tags (lit "<tr> " ++ [Char.nl] ++ lit " <td>")
           (lit "<tr") Char.gt Char.lt (lit "td>")).
  vm_compute. reflexivity.
Defined.

(** X13: cleaning a table block twice is cleaning it once. *)
Theorem clean_table_block_idempotent (t : str) :
  clean_table_block (clean_table_block t) = clean_table_block t.
Proof.
  apply TableText.fixed_block.
  - apply TableText.clean_table_block_is_tight.
  - apply TableText.clean_table_block_snug.
Qed.

(** ** More on the chunks of a document *)

Lemma filter_visible_solid l :
  List.filter visible l
  = List.filter (fun c => negb (Char.is_control c)) (List.filter solid l).
Proof.
  induction l as [|c l IH]; [reflexivity|]. cbn [List.filter].
  unfold visible at 1, solid at 1.
  destruct (Char.is_space c); cbn [negb andb List.filter]; [exact IH|].
  now rewrite IH.
Qed.

Lemma solid_visible a b :
  List.filter solid a = List.filter solid b ->
  List.filter visible a = List.filter visible b.
Proof. intros H. now rewrite !filter_visible_solid, H. Qed.

Lemma blank_no_solid s : blank s = false -> List.filter solid s <> [].
Proof.
  unfold blank. induction s as [|c s IH]; cbn [forallb List.filter];
    [discriminate|].
  unfold solid at 1. destruct (Char.is_space c); cbn [negb andb];
    [exact IH | discriminate].
Qed.

Lemma build_chunks_text document chunk_index sections :
  map text_of (build_chunks document chunk_index sections)
  = map text_of sections.
Proof.
  revert chunk_index. induction sections as [|s l IH]; intros i;
    [reflexivity|].
  cbn [build_chunks map]. now rewrite IH.
Qed.

Lemma build_sections_visible i section_texts :
  List.filter visible
    (List.concat (map text_of (build_sections i section_texts)))
  = List.filter visible (List.concat section_texts).
Proof.
  revert i. induction section_texts as [|t l IH]; intros i; [reflexivity|].
  cbn [build_sections List.concat]. rewrite List.filter_app.
  rewrite nonempty_strip. destruct (blank t) eqn:Hb; cbn [negb].
  - rewrite IH. now rewrite (filter_visible_blank t Hb).
  - cbn [map List.concat]. rewrite List.filter_app, IH. f_equal.
    unfold text_of. cbn [page_content].
    rewrite (solid_visible _ _ (clean_table_formatting_filter_solid _)).
    apply strip_filter, visible_space.
Qed.

Lemma merge_pass_visible min_chunk_size sections :
  List.filter visible (List.concat (merge_pass min_chunk_size sections))
  = List.filter visible (List.concat sections).
Proof.
  induction sections as [|x|x y l IH1 IH2] using list_pair_ind.
  - reflexivity.
  - reflexivity.
  - rewrite merge_pass_step. destruct (small min_chunk_size x).
    + cbn [List.concat]. rewrite !List.filter_app, IH1.
      change (List.filter visible [Char.nl; Char.nl]) with (@nil N).
      cbn [app]. now rewrite <- !app_assoc.
    + change (List.concat (x :: ?l)) with (x ++ List.concat l).
      now rewrite !(List.filter_app _ x), IH2.
Qed.

Lemma chunk_document_filter_visible
    (document : Document) (content : str)
    (log : list log_line) (chunks : list Document) :
  page_content document = PStr content ->
  chunk_document document = (log, Ok chunks) ->
  List.filter visible (List.concat (map text_of chunks))
  = List.filter visible content.
Proof.
  intros Hc H. apply chunk_document_with_ok in H.
  destruct H as (content' & Hc' & ->). rewrite Hc in Hc'.
  injection Hc' as <-.
  rewrite build_chunks_text, build_sections_visible.
  unfold sections_after_merge, sections_before_merge.
  rewrite merge_small_chunks_pass, merge_pass_visible.
  rewrite (solid_visible _ _ (split_by_headers_filter_solid _)).
  apply clean_text_filter_visible.
Qed.

(** X14: the texts of the chunks of a document, one after the other, have
    the visible characters of the document (those that are neither white
    space nor control characters), all of them, once, in the same order. *)
Theorem chunk_document_keeps_visible
    (document : Document) (content : str)
    (log : list log_line) (chunks : list Document) :
  page_content document = PStr content ->
  chunk_document document = (log, Ok chunks) ->
  List.filter visible (List.concat (map text_of chunks))
  = List.filter visible content.
Proof. apply chunk_document_filter_visible. Qed.

Lemma chunk_document_keeps_visible_witness :
  List.filter visible
    (List.concat (map text_of
       (build_chunks fixture_document 0
          (build_sections 0 (sections_after_merge 100 fixture)))))
  = List.filter visible fixture.
Proof.
  apply (chunk_document_keeps_visible fixture_document fixture []);
    reflexivity.
Defined.

Lemma build_chunks_in document chunk_index sections chunk :
  In chunk (build_chunks document chunk_index sections) ->
  exists section k,
    In section sections
    /\ page_content chunk = page_content section
    /\ metadata chunk
       = <[ "section_index"%string :=
              default (PInt 0) (metadata section !! "section_index"%string) ]>
         (<[ "original_length"%string :=
               PInt (py_len (page_content document)) ]>
          (<[ "chunk_type"%string := PStr (lit "header_section") ]>
           (<[ "chunk_index"%string := PInt (Z.of_nat k) ]>
            (metadata document)))).
Proof.
  revert chunk_index. induction sections as [|s l IH]; intros i; [intros []|].
  cbn [build_chunks]. intros [<-|H].
  - exists s, i. split; [now left|]. split; reflexivity.
  - destruct (IH _ H) as (section & k & Hin & Hp & Hm).
    exists section, k. split; [now right|]. auto.
Qed.

(** X15: every chunk of a document has the metadata of the document, but
    for the four keys that [chunk_document] sets: ['chunk_type'] is
    ['header_section'], ['original_length'] is the length of the content of
    the document, and every other key but ['chunk_index'] and
    ['section_index'] has the value, or the absence of value, it has in the
    document. *)
Theorem chunk_document_metadata
    (document : Document) (log : list log_line)
    (chunks : list Document) (chunk : Document) :
  chunk_document document = (log, Ok chunks) ->
  In chunk chunks ->
  metadata chunk !! "chunk_type"%string = Some (PStr (lit "header_section"))
  /\ metadata chunk !! "original_length"%string
     = Some (PInt (py_len (page_content document)))
  /\ forall key : string,
       key <> "chunk_index"%string -> key <> "chunk_type"%string ->
       key <> "original_length"%string -> key <> "section_index"%string ->
       metadata chunk !! key = metadata document !! key.
Proof.
  intros H Hin. apply chunk_document_with_ok in H.
  destruct H as (content & Hc & ->). apply build_chunks_in in Hin.
  destruct Hin as (section & k & _ & _ & ->). repeat split.
  - rewrite lookup_insert_ne by discriminate.
    rewrite lookup_insert_ne by discriminate. apply lookup_insert_eq.
  - rewrite lookup_insert_ne by discriminate. apply lookup_insert_eq.
  - intros key H1 H2 H3 H4. now rewrite !lookup_insert_ne by congruence.
Qed.

Lemma chunk_document_metadata_witness :
  metadata sourced_chunk !! "chunk_type"%string
  = Some (PStr (lit "header_section"))
  /\ metadata sourced_chunk !! "original_length"%string
     = Some (PInt (py_len (page_content sourced_document)))
  /\ forall key : string,
       key <> "chunk_index"%string -> key <> "chunk_type"%string ->
       key <> "original_length"%string -> key <> "section_index"%string ->
       metadata sourced_chunk !! key = metadata sourced_document !! key.
Proof.
  apply (chunk_document_metadata sourced_document []
           (build_chunks sourced_document 0
              (build_sections 0 (sections_after_merge 100 three_sections)))
           sourced_chunk).
  - reflexivity.
  - right. left. vm_compute. reflexivity.
Defined.

Lemma split_by_headers_empty : _split_by_headers_manual [] = [].
Proof. reflexivity. Qed.

(** X16: a document gives no chunk exactly when its content has no visible
    character; and every chunk of a document has a character that is not
    white space. *)
Theorem chunk_document_empty
    (document : Document) (content : str)
    (log : list log_line) (chunks : list Document) :
  page_content document = PStr content ->
  chunk_document document = (log, Ok chunks) ->
  (chunks = [] <-> List.filter visible content = [])
  /\ forall chunk, In chunk chunks -> List.filter solid (text_of chunk) <> [].
Proof.
  intros Hc H. pose proof (chunk_document_filter_visible _ _ _ _ Hc H) as Hv.
  apply chunk_document_with_ok in H.
  destruct H as (content' & Hc' & ->). rewrite Hc in Hc'.
  injection Hc' as <-. split; [split|].
  - intros E. now rewrite E in Hv.
  - intros E. apply clean_text_nil_iff in E.
    unfold sections_after_merge, sections_before_merge. rewrite E.
    reflexivity.
  - intros chunk Hin. apply build_chunks_in in Hin.
    destruct Hin as (section & k & Hin & Hp & _).
    apply In_nth_error in Hin. destruct Hin as (n & Hn).
    apply build_sections_nth in Hn. destruct Hn as (j & text & Hj & _ & ->).
    unfold text_of. rewrite Hp. cbn [page_content].
    rewrite clean_table_formatting_filter_solid.
    rewrite strip_filter by (unfold solid; now intros c ->).
    apply blank_no_solid. apply nth_error_In in Hj.
    pose proof (sections_after_merge_nonblank 100 content) as Hall.
    rewrite List.Forall_forall in Hall. specialize (Hall text Hj).
    unfold nonblank in Hall. rewrite nonempty_strip in Hall.
    now apply negb_true_iff.
Qed.

Lemma chunk_document_empty_witness :
  (@nil Document = [] <-> List.filter visible [Char.space; Char.nl; Char.tab] = [])
  /\ forall chunk,
       In chunk (@nil Document) -> List.filter solid (text_of chunk) <> [].
Proof.
  apply (chunk_document_empty
           (mkDocument (PStr [Char.space; Char.nl; Char.tab]) ∅)
           [Char.space; Char.nl; Char.tab] []);
    reflexivity.
Defined.

(** ** More on a batch of documents *)

Lemma chunk_each_ok documents all_chunks :
  Forall (fun d => exists content, page_content d = PStr content) documents ->
  chunk_each documents all_chunks
  = ([], Ok (all_chunks ++ List.concat (map document_chunks documents))).
Proof.
  revert all_chunks. induction documents as [|d l IH]; intros acc H.
  - cbn. now rewrite app_nil_r.
  - inversion H as [|? ? (content & Hd) Hl]; subst. cbn [chunk_each].
    destruct d as [pc md]. cbn [page_content] in Hd. subst pc.
    unfold document_chunks at 1, chunk_document.
    rewrite chunk_document_with_text. cbn [bind app].
    rewrite (IH _ Hl). cbn [map List.concat]. now rewrite <- app_assoc.
Qed.

(** X17: when the content of every document is a string,
    [chunk_all_documents] returns the chunks of the documents, document
    after document in the order of the batch, and logs no error. *)
Theorem chunk_all_documents_concat (documents : list Document) :
  Forall (fun d => exists content, page_content d = PStr content) documents ->
  chunk_all_documents documents
  = ([], Ok (List.concat (map document_chunks documents))).
Proof.
  intros H. unfold chunk_all_documents. now rewrite (chunk_each_ok _ [] H).
Qed.

Lemma chunk_all_documents_concat_witness :
  chunk_all_documents [fixture_document; three_sections_document]
  = ([], Ok (List.concat
               (map document_chunks
                  [fixture_document; three_sections_document]))).
Proof.
  apply (chunk_all_documents_concat
           [fixture_document; three_sections_document]).
  repeat constructor; eexists; reflexivity.
Defined.

(** ** [_is_table] *)

Module Detect.

Lemma starts_with_iff w s :
  starts_with w s = true <-> exists b, s = w ++ b.
Proof.
  revert s. induction w as [|a w IH]; intros s; cbn [starts_with].
  - split; [intros _; now exists s | reflexivity].
  - destruct s as [|c s].
    + split; [discriminate | intros (b & H); discriminate].
    + rewrite andb_true_iff, eq_char_true, IH. split.
      * intros (-> & b & ->). now exists b.
      * intros (b & H). injection H as -> ->. eauto.
Qed.

Lemma contains_iff w s :
  contains w s = true <-> exists a b, s = a ++ w ++ b.
Proof.
  induction s as [|c s IH]; cbn [contains]; rewrite orb_true_iff.
  - rewrite starts_with_iff. split.
    + intros [(b & H)|H]; [|discriminate]. now exists [], b.
    + intros (a & b & H). left. destruct a; [now exists b|discriminate].
  - rewrite starts_with_iff, IH. split.
    + intros [(b & H)|(a & b & ->)]; [now exists [], b|].
      now exists (c :: a), b.
    + intros ([|d a] & b & H); [left; now exists b|].
      injection H as -> ->. right. eauto.
Qed.

Lemma contains_char c s : contains [c] s = true <-> In c s.
Proof.
  rewrite contains_iff. split.
  - intros (a & b & ->). apply in_app_iff. right. now left.
  - intros H. apply in_split in H. destruct H as (a & b & ->). eauto.
Qed.

Lemma search_iff r s :
  search r s = true <-> exists a t, s = a ++ t /\ rmatch r t <> None.
Proof.
  induction s as [|c s IH]; cbn [search].
  - destruct (rmatch r []) eqn:E.
    + split; [intros _; exists [], []; now rewrite E | reflexivity].
    + split; [discriminate|]. intros (a & t & H & Ht).
      symmetry in H. apply app_eq_nil in H. destruct H as [_ ->]. congruence.
  - destruct (rmatch r (c :: s)) eqn:E.
    + split; [intros _; exists [], (c :: s); now rewrite E | reflexivity].
    + rewrite IH. split.
      * intros (a & t & -> & Ht). now exists (c :: a), t.
      * intros ([|d a] & t & H & Ht); [cbn in H; subst t; congruence|].
        injection H as -> ->. eauto.
Qed.

Lemma greedy_complete p k w t :
  forallb p w = true -> k t <> None -> greedy p k (w ++ t) <> None.
Proof.
  intros Hw Hk. induction w as [|c w IH]; cbn [app].
  - now apply Heading.greedy_succeeds.
  - cbn [forallb] in Hw. apply andb_true_iff in Hw. destruct Hw as [Hc Hw].
    cbn [greedy]. rewrite Hc. specialize (IH Hw).
    now destruct (greedy p k (w ++ t)).
Qed.

(** the pattern for pipes matches where two pipes stand on one line *)
Lemma pipes_match t :
  rmatch pipes_pattern t <> None <->
  exists m b, t = pipe :: m ++ pipe :: b /\ no_nl m = true.
Proof.
  split.
  - destruct (rmatch pipes_pattern t) as [n|] eqn:E; [intros _|easy].
    destruct (Sound.match_denotes _ _ _ E) as [Hd _].
    destruct Hd as (c & t1 & E1 & Hc & w & t2 & -> & Hw & d & t3 & -> & Hd
                    & Hnil).
    cbn [denotes] in Hnil. subst t3. apply eq_char_true in Hc, Hd. subst c d.
    exists w, (skipn n t). split; [|exact Hw].
    rewrite <- (firstn_skipn n t) at 1. rewrite E1.
    cbn [app]. now rewrite <- app_assoc.
  - intros (m & b & -> & Hm). cbn [pipes_pattern rmatch one].
    rewrite eq_char_refl.
    pose proof (greedy_complete Char.not_nl
                  (one (Char.eq_char pipe) (fun _ => Some O))
                  m (pipe :: b) Hm) as H.
    cbn [one] in H. rewrite eq_char_refl in H.
    destruct (greedy Char.not_nl (one (Char.eq_char pipe) (fun _ => Some O))
                (m ++ pipe :: b)); [cbn; discriminate|].
    exfalso. apply H; [cbn; discriminate | reflexivity].
Qed.

End Detect.

Lemma is_table_cases (block : str) :
  _is_table block = true <->
  (exists a m b,
      block = a ++ [pipe] ++ m ++ [pipe] ++ b /\ no_nl m = true)
  \/ In Char.tab block
  \/ (exists a b, block = a ++ lit "\begin{tabular}" ++ b).
Proof.
  unfold _is_table.
  rewrite <- Detect.contains_iff, <- Detect.contains_char.
  assert (Hs : search pipes_pattern block = true <->
               exists a m b,
                 block = a ++ [pipe] ++ m ++ [pipe] ++ b /\ no_nl m = true).
  { rewrite Detect.search_iff. split.
    - intros (a & t & -> & H). apply Detect.pipes_match in H.
      destruct H as (m & b & -> & Hm). now exists a, m, b.
    - intros (a & m & b & -> & Hm). exists a, (pipe :: m ++ pipe :: b).
      split; [reflexivity|]. apply Detect.pipes_match. eauto. }
  rewrite <- Hs.
  destruct (search pipes_pattern block); [tauto|].
  destruct (contains [Char.tab] block); [tauto|].
  destruct (contains (lit "\begin{tabular}") block); [tauto|].
  split; [discriminate|]. intros [H|[H|H]]; discriminate.
Qed.

(** X18: [_is_table] holds of a block exactly when two [|] stand on one of
    its lines, or it has a tab character, or it has the text
    [\begin{tabular}]. *)
Theorem is_table_iff (block : str) :
  _is_table block = true <->
  (exists a m b,
      block = a ++ [pipe] ++ m ++ [pipe] ++ b /\ no_nl m = true)
  \/ In Char.tab block
  \/ (exists a b, block = a ++ lit "\begin{tabular}" ++ b).
Proof. apply is_table_cases. Qed.

(** X19: a text that contains a block [_is_table] holds of is one
    [_is_table] holds of. *)
Theorem is_table_within (before block after : str) :
  _is_table block = true -> _is_table (before ++ block ++ after) = true.
Proof.
  rewrite !is_table_cases. intros [(a & m & b & -> & Hm)|[H|(a & b & ->)]].
  - left. exists (before ++ a), m, (b ++ after). split; [|exact Hm].
    now rewrite <- !app_assoc.
  - right. left. rewrite !in_app_iff. tauto.
  - right. right. exists (before ++ a), (b ++ after).
    now rewrite <- !app_assoc.
Qed.

Lemma is_table_within_witness :
  _is_table (lit "Totals: " ++ lit "| h1 | h2 |" ++ lit " (see above)") = true.
Proof.
  apply (is_table_within (lit "Totals: ") (lit "| h1 | h2 |")
           (lit " (see above)")).
  vm_compute. reflexivity.
Defined.

(** ** [_split_text_with_tables] *)

Module Blocks.

Abbreviation blank_line := [Char.nl; Char.nl].

Lemma fold_block_step blocks chunks :
  fold_left block_step blocks chunks
  = chunks ++ List.filter nonempty (map strip blocks).
Proof.
  revert chunks. induction blocks as [|b l IH]; intros acc.
  - cbn. now rewrite app_nil_r.
  - cbn [fold_left map List.filter]. rewrite IH. unfold block_step.
    destruct (nonempty (strip b)); [|reflexivity].
    destruct (_is_table (strip b)); now rewrite <- app_assoc.
Qed.

Lemma split_blank_step c d s :
  split_blank (c :: d :: s)
  = if Char.eq_char Char.nl c && Char.eq_char Char.nl d
    then [] :: split_blank s
    else push c (split_blank (d :: s)).
Proof. reflexivity. Qed.

Lemma concat_push c pieces :
  List.concat (push c pieces) = c :: List.concat pieces.
Proof. now destruct pieces. Qed.

(** the first piece is empty or starts with the first character *)
Lemma split_blank_first d s :
  exists piece rest,
    split_blank (d :: s) = piece :: rest
    /\ (piece = [] \/ exists piece', piece = d :: piece').
Proof.
  destruct s as [|e s]; [exists [d], []; eauto|].
  rewrite split_blank_step.
  destruct (Char.eq_char Char.nl d && Char.eq_char Char.nl e);
    [eexists _, _; eauto|].
  destruct (split_blank (e :: s)) as [|p r]; cbn [push];
    eexists _, _; eauto.
Qed.

Lemma split_blank_pieces s :
  Forall (fun piece => contains blank_line piece = false) (split_blank s).
Proof.
  induction s as [|c|c d s IH1 IH2] using list_pair_ind.
  - repeat constructor.
  - repeat constructor. cbn. now rewrite andb_false_r.
  - rewrite split_blank_step.
    destruct (Char.eq_char Char.nl c && Char.eq_char Char.nl d) eqn:E.
    + constructor; [reflexivity | exact IH1].
    + destruct (split_blank_first d s) as (p & r & Ep & Hp).
      rewrite Ep in *. cbn [push]. inversion IH2 as [|? ? Hp' Hr]; subst.
      constructor; [|exact Hr]. cbn [contains]. rewrite Hp', orb_false_r.
      destruct Hp as [-> | (p' & ->)]; cbn [starts_with].
      * apply andb_false_r.
      * rewrite andb_true_r. exact E.
Qed.

Lemma split_blank_solid s :
  List.filter solid (List.concat (split_blank s)) = List.filter solid s.
Proof.
  induction s as [|c|c d s IH1 IH2] using list_pair_ind.
  - reflexivity.
  - reflexivity.
  - rewrite split_blank_step.
    destruct (Char.eq_char Char.nl c && Char.eq_char Char.nl d) eqn:E.
    + apply andb_true_iff in E. destruct E as [Hc Hd].
      apply eq_char_true in Hc, Hd. subst c d. cbn [List.concat app].
      now rewrite IH1.
    + rewrite concat_push. cbn [List.filter]. now rewrite IH2.
Qed.

Lemma stripped_solid blocks :
  List.filter solid (List.concat (List.filter nonempty (map strip blocks)))
  = List.filter solid (List.concat blocks).
Proof.
  induction blocks as [|b l IH]; [reflexivity|].
  cbn [map List.filter List.concat]. rewrite List.filter_app, <- IH.
  rewrite <- (strip_filter solid b) by (unfold solid; now intros c ->).
  destruct (strip b); cbn [nonempty]; [reflexivity|].
  cbn [List.concat]. now rewrite List.filter_app.
Qed.

Lemma strip_contains w s :
  contains w (strip s) = true -> contains w s = true.
Proof.
  rewrite !Detect.contains_iff. intros (a & b & E).
  destruct (strip_split s) as (a0 & b0 & Es & _).
  exists (a0 ++ a), (b ++ b0). rewrite Es at 1. rewrite E.
  now rewrite <- !app_assoc.
Qed.

End Blocks.

(** X20: every block of [_split_text_with_tables] is a stripped text that is
    not empty and has no blank line; the blocks, one after the other, have
    the characters of the text that are not white space, in the same order;
    and a blank text gives no block. *)
Theorem split_text_with_tables_blocks (text : str) :
  Forall (fun block =>
            block <> [] /\ strip block = block
            /\ forall a b, block <> a ++ [Char.nl; Char.nl] ++ b)
    (_split_text_with_tables text)
  /\ List.filter solid (List.concat (_split_text_with_tables text))
     = List.filter solid text
  /\ (blank text = true -> _split_text_with_tables text = []).
Proof.
  unfold _split_text_with_tables. rewrite Blocks.fold_block_step.
  cbn [app].
  assert (Hall : Forall (fun block =>
            block <> [] /\ strip block = block
            /\ forall a b, block <> a ++ [Char.nl; Char.nl] ++ b)
            (List.filter nonempty (map strip (split_blank text)))).
  { pose proof (Blocks.split_blank_pieces text) as H.
    induction H as [|p l Hp Hl IH]; [constructor|].
    cbn [map List.filter]. destruct (nonempty (strip p)) eqn:E; [|exact IH].
    constructor; [|exact IH]. split; [now apply nonempty_true|].
    split; [apply strip_idem|]. intros a b Eb.
    assert (Hc : contains [Char.nl; Char.nl] (strip p) = true)
      by (apply Detect.contains_iff; eauto).
    apply Blocks.strip_contains in Hc. congruence. }
  assert (Hsolid :
            List.filter solid
              (List.concat
                 (List.filter nonempty (map strip (split_blank text))))
            = List.filter solid text)
    by now rewrite Blocks.stripped_solid, Blocks.split_blank_solid.
  split; [exact Hall|]. split; [exact Hsolid|].
  intros Hb. rewrite (filter_solid_blank text Hb) in Hsolid.
  destruct (List.filter nonempty (map strip (split_blank text)))
    as [|b l]; [reflexivity|].
  inversion Hall as [|? ? (Hne & Hs & _) _]; subst. exfalso.
  cbn [List.concat] in Hsolid. rewrite List.filter_app in Hsolid.
  apply app_eq_nil in Hsolid. destruct Hsolid as [Hsolid _].
  apply (blank_no_solid b); [|exact Hsolid].
  destruct (blank b) eqn:Eb; [|reflexivity].
  apply strip_nil in Eb. congruence.
Qed.

(** ** [_generate_safe_document_key] *)

Module Key.

Lemma unsafe_match c s :
  rmatch unsafe_pattern (c :: s)
  = if key_char c then None else Some 1%nat.
Proof. cbn [unsafe_pattern rmatch one]. now destruct (key_char c). Qed.

Lemma sub_unsafe s :
  sub_const unsafe_pattern [underscore] s
  = map (fun c => if key_char c then c else underscore) s.
Proof.
  unfold sub_const. induction s as [|c s IH]; [reflexivity|].
  cbn [map]. destruct (key_char c) eqn:Hc.
  - rewrite sub_copy by (left; now rewrite unsafe_match, Hc). now rewrite IH.
  - rewrite (sub_replace _ _ (c :: s) 0)
      by now rewrite unsafe_match, Hc.
    change (skipn 1 (c :: s)) with s. cbn [app]. now rewrite IH.
Qed.

Lemma sanitize_steps c :
  (fun c => if key_char c then c else underscore)
    ((fun c => if Char.eq_char 32 c then underscore else c)
       ((fun c => if Char.eq_char 45 c then underscore else c)
          ((fun c => if Char.eq_char 46 c then underscore else c) c)))
  = sanitize_char c.
Proof.
  unfold sanitize_char. cbv beta.
  destruct (Char.eq_char 46 c) eqn:E1.
  { apply eq_char_true in E1. now subst c. }
  destruct (Char.eq_char 45 c) eqn:E2.
  { apply eq_char_true in E2. now subst c. }
  destruct (Char.eq_char 32 c) eqn:E3.
  { apply eq_char_true in E3. now subst c. }
  cbn [negb]. now rewrite andb_true_r.
Qed.

Lemma sanitize_char_safe c : key_char (sanitize_char c) = true.
Proof.
  unfold sanitize_char. destruct (key_char c) eqn:E; cbn [andb].
  - now destruct (negb (Char.eq_char 45 c)).
  - reflexivity.
Qed.

Lemma sanitize_char_idem c : sanitize_char (sanitize_char c) = sanitize_char c.
Proof.
  unfold sanitize_char.
  destruct (key_char c && negb (Char.eq_char 45 c)) eqn:E;
    [now rewrite E | reflexivity].
Qed.

Lemma lit_cons a s : lit (String a s) = N_of_ascii a :: lit s.
Proof. reflexivity. Qed.

Lemma uint_digits d :
  forallb digit_or_minus (lit (NilEmpty.string_of_uint d)) = true.
Proof.
  induction d; cbn [NilEmpty.string_of_uint]; [reflexivity|..];
    rewrite lit_cons; cbn [forallb]; now rewrite IHd.
Qed.

Lemma uint_digits_zero d :
  forallb digit_or_minus (lit (NilZero.string_of_uint d)) = true.
Proof.
  destruct d; [reflexivity | exact (uint_digits _) ..].
Qed.

Lemma format_int_digits n : forallb digit_or_minus (format_int n) = true.
Proof.
  unfold format_int. destruct (Z.to_int n) as [d|d];
    cbn [NilZero.string_of_int].
  - apply uint_digits_zero.
  - rewrite lit_cons. cbn [forallb]. now rewrite uint_digits_zero.
Qed.

Lemma lit_inj s s' : lit s = lit s' -> s = s'.
Proof.
  revert s'. induction s as [|a s IH]; intros [|a' s']; try discriminate;
    [reflexivity|].
  rewrite !lit_cons. intros H. injection H as Ha Hs.
  apply (f_equal ascii_of_N) in Ha. rewrite !ascii_N_embedding in Ha.
  subst a'. f_equal. now apply IH.
Qed.

Lemma format_int_inj n m : format_int n = format_int m -> n = m.
Proof.
  unfold format_int. intros H. apply lit_inj in H.
  assert (Hnil : forall z, Z.to_int z <> Pos Nil /\ Z.to_int z <> Neg Nil).
  { intros [|p|p]; cbn; split; try discriminate;
      intros E; injection E as E;
      now apply DecimalPos.Unsigned.to_uint_nonnil in E. }
  apply (f_equal NilZero.int_of_string) in H.
  rewrite !NilZero.isi in H by apply Hnil.
  injection H as H. apply (f_equal Z.of_int) in H.
  now rewrite !DecimalZ.of_to in H.
Qed.

(** two texts cut at an underscore with no underscore before it are cut at
    the same place *)
Lemma cut_first (x x' y y' : str) :
  ~ In underscore x -> ~ In underscore x' ->
  x ++ underscore :: y = x' ++ underscore :: y' -> x = x' /\ y = y'.
Proof.
  revert x'. induction x as [|c x IH]; intros [|c' x'] Hx Hx' E.
  - injection E as <-. auto.
  - injection E as <- _. exfalso. apply Hx'. now left.
  - injection E as -> _. exfalso. apply Hx. now left.
  - injection E as <- E. destruct (IH x') as [-> ->]; auto.
    + intros H. apply Hx. now right.
    + intros H. apply Hx'. now right.
Qed.

Lemma cut_last (x x' y y' : str) :
  ~ In underscore y -> ~ In underscore y' ->
  x ++ underscore :: y = x' ++ underscore :: y' -> x = x' /\ y = y'.
Proof.
  intros Hy Hy' E. apply (f_equal (@rev N)) in E.
  rewrite !rev_app_distr in E. cbn [rev] in E. rewrite <- !app_assoc in E.
  cbn [app] in E. apply cut_first in E.
  - destruct E as [E1 E2]. apply (f_equal (@rev N)) in E1, E2.
    rewrite !rev_involutive in E1, E2. auto.
  - now rewrite <- in_rev.
  - now rewrite <- in_rev.
Qed.

Lemma format_int_no_underscore n : ~ In underscore (format_int n).
Proof.
  intros H. pose proof (format_int_digits n) as Hd.
  rewrite forallb_forall in Hd. specialize (Hd _ H). discriminate.
Qed.

End Key.

Lemma safe_source_name_sanitize (source_name : str) :
  safe_source_name source_name = map sanitize_char source_name.
Proof.
  unfold safe_source_name, replace_char. rewrite Key.sub_unsafe, !map_map.
  apply map_ext. intros c. apply Key.sanitize_steps.
Qed.

(** X21: the sanitised source name is the source name with every character
    that is not a letter, a digit, [_] or [=] replaced by [_], position by
    position. *)
Theorem safe_source_name_map (source_name : str) :
  safe_source_name source_name = map sanitize_char source_name.
Proof. apply safe_source_name_sanitize. Qed.

(** X22: a key has the characters that the search index allows only:
    letters, digits, [_], [-] and [=]. *)
Theorem generate_safe_document_key_chars
    (source_name : str) (index chunk_index : Z) :
  forallb key_char (_generate_safe_document_key source_name index chunk_index)
  = true.
Proof.
  unfold _generate_safe_document_key. rewrite safe_source_name_sanitize.
  assert (Hd : forall n, forallb key_char (format_int n) = true).
  { intros n. pose proof (Key.format_int_digits n) as H.
    rewrite forallb_forall in *. intros c Hc. specialize (H c Hc).
    unfold digit_or_minus in H. unfold key_char.
    apply orb_true_iff in H. destruct H as [-> | ->];
      now rewrite ?orb_true_r. }
  assert (Hs : forallb key_char (map sanitize_char source_name) = true).
  { apply forallb_forall. intros c Hc. apply in_map_iff in Hc.
    destruct Hc as (d & <- & _). apply Key.sanitize_char_safe. }
  rewrite !forallb_app. cbn [forallb]. rewrite !Hd, Hs. reflexivity.
Qed.

(** X23: two keys are equal exactly when the source names have the same
    sanitised form and the two indices are the same: the documents of one
    call of [index_all_documents], which have distinct indices, have
    distinct keys, while source names such as [a.b] and [a_b] share theirs. *)
Theorem generate_safe_document_key_equal
    (source_name source_name' : str) (index index' chunk_index chunk_index' : Z) :
  _generate_safe_document_key source_name index chunk_index
  = _generate_safe_document_key source_name' index' chunk_index'
  <-> map sanitize_char source_name = map sanitize_char source_name'
      /\ index = index' /\ chunk_index = chunk_index'.
Proof.
  unfold _generate_safe_document_key. rewrite !safe_source_name_sanitize. split.
  - assert (Hshape : forall s fi fc : str,
               s ++ [underscore] ++ fi ++ [underscore] ++ fc
               = (s ++ underscore :: fi) ++ underscore :: fc)
      by (intros; now rewrite <- app_assoc).
    rewrite !Hshape. intros E.
    apply Key.cut_last in E; try apply Key.format_int_no_underscore.
    destruct E as [E Ec]. apply Key.cut_last in E;
      try apply Key.format_int_no_underscore.
    destruct E as [Es Ei]. apply Key.format_int_inj in Ei, Ec. auto.
  - now intros (-> & -> & ->).
Qed.

(** X24: sanitising a source name twice is sanitising it once, and keeps
    its length. *)
Theorem safe_source_name_idempotent (source_name : str) :
  safe_source_name (safe_source_name source_name)
  = safe_source_name source_name
  /\ length (safe_source_name source_name) = length source_name.
Proof.
  rewrite !safe_source_name_sanitize, map_map, length_map. split; [|reflexivity].
  apply map_ext. intros c. apply Key.sanitize_char_idem.
Qed.

(** ** [EmbeddingService] *)

Module Embed.

Section Facts.
Variable F : Type.
Variable create : nat -> list pyval -> option (list (list F)).

Lemma batch_length (texts : list pyval) k i :
  length (firstn k (skipn i texts)) = Nat.min k (length texts - i).
Proof. now rewrite length_firstn, length_skipn. Qed.

Lemma embed_loop_length fuel texts batch_size i acc :
  aligned F create ->
  (length texts - i <= fuel)%nat ->
  length (embed_loop F create fuel texts batch_size i acc)
  = (length acc + (length texts - i))%nat.
Proof.
  intros Ha. revert i acc. induction fuel as [|fuel IH]; intros i acc Hf.
  - cbn. lia.
  - cbn [embed_loop]. pose proof (Pos2Nat.is_pos batch_size) as Hk.
    destruct (i <? length texts)%nat eqn:Hi.
    + apply Nat.ltb_lt in Hi.
      pose proof (batch_length texts (Pos.to_nat batch_size) i) as Hb.
      destruct (create _ _) as [answers|] eqn:E.
      * apply Ha in E. rewrite IH by lia.
        rewrite length_app, length_map. lia.
      * rewrite IH by lia. rewrite length_app, repeat_length. lia.
    + apply Nat.ltb_ge in Hi. lia.
Qed.

Lemma embed_loop_none fuel texts batch_size i acc :
  (forall n batch, create n batch = None) ->
  (length texts - i <= fuel)%nat ->
  embed_loop F create fuel texts batch_size i acc
  = acc ++ repeat None (length texts - i).
Proof.
  intros Hn. revert i acc. induction fuel as [|fuel IH]; intros i acc Hf.
  - cbn. replace (length texts - i)%nat with 0%nat by lia.
    cbn. now rewrite app_nil_r.
  - cbn [embed_loop]. pose proof (Pos2Nat.is_pos batch_size) as Hk.
    destruct (i <? length texts)%nat eqn:Hi.
    + apply Nat.ltb_lt in Hi. rewrite Hn, IH by lia.
      rewrite <- app_assoc, <- repeat_app. f_equal. f_equal.
      rewrite batch_length. lia.
    + apply Nat.ltb_ge in Hi.
      replace (length texts - i)%nat with 0%nat by lia.
      cbn. now rewrite app_nil_r.
Qed.

Lemma embed_loop_some fuel texts batch_size i acc :
  aligned F create ->
  (forall n batch, create n batch <> None) ->
  (length texts - i <= fuel)%nat ->
  Forall (fun e => e <> None) acc ->
  Forall (fun e => e <> None)
    (embed_loop F create fuel texts batch_size i acc).
Proof.
  intros Ha Hs. revert i acc. induction fuel as [|fuel IH]; intros i acc Hf Hacc.
  - exact Hacc.
  - cbn [embed_loop]. pose proof (Pos2Nat.is_pos batch_size) as Hk.
    destruct (i <? length texts)%nat eqn:Hi; [|exact Hacc].
    destruct (create _ _) as [answers|] eqn:E; [|now apply Hs in E].
    apply IH; [lia|]. apply Forall_app. split; [exact Hacc|].
    apply List.Forall_forall. intros e He. apply in_map_iff in He.
    now destruct He as (x & <- & _).
Qed.

Lemma attach_none documents n :
  attach F documents (repeat None n) = [].
Proof.
  revert n. induction documents as [|d l IH]; intros [|n]; cbn; auto.
Qed.

Lemma attach_all documents embeddings :
  length embeddings = length documents ->
  Forall (fun e => e <> None) embeddings ->
  map embedded_content (attach F documents embeddings)
  = map page_content documents.
Proof.
  revert embeddings. induction documents as [|d l IH]; intros [|e es] Hl Hs;
    try discriminate; [reflexivity|].
  inversion Hs as [|? ? He Hes]; subst. cbn [attach].
  destruct e as [e|]; [|congruence]. cbn [map embedded_content].
  f_equal. apply IH; [now injection Hl | exact Hes].
Qed.

Lemma attach_in documents embeddings out :
  In out (attach F documents embeddings) ->
  exists doc e,
    In doc documents /\ In (Some e) embeddings
    /\ out = mkEmbedded F (page_content doc)
               (<[ "embedding_dimension"%string :=
                     Plain (PInt (Z.of_nat (length e))) ]>
                (<[ "embedding"%string := Vector e ]>
                 (Plain <$> metadata doc))).
Proof.
  revert embeddings. induction documents as [|d l IH]; intros [|e es];
    try (intros []).
  cbn [attach]. destruct e as [e|].
  - intros [<-|H].
    + exists d, e. repeat split; now left.
    + destruct (IH _ H) as (doc & e' & H1 & H2 & H3).
      exists doc, e'. repeat split; [now right | now right | exact H3].
  - intros H. destruct (IH _ H) as (doc & e' & H1 & H2 & H3).
    exists doc, e'. repeat split; [now right | now right | exact H3].
Qed.
End Facts.

End Embed.



(** X26: [add_all_embeddings_to_documents] returns every document, in the
    order of the list, when the service answers every batch with one
    embedding for each text; and it returns no document when the service
    raises on every batch. *)
Theorem add_all_embeddings_to_documents_all_or_none
    (F : Type) (create : nat -> list pyval -> option (list (list F)))
    (documents : list Document) (batch_size : positive) :
  ((forall n batch, exists answers,
       create n batch = Some answers /\ length answers = length batch) ->
   map embedded_content
     (add_all_embeddings_to_documents F create documents batch_size)
   = map page_content documents)
  /\ ((forall n batch, create n batch = None) ->
      add_all_embeddings_to_documents F create documents batch_size = []).
Proof.
  unfold add_all_embeddings_to_documents, generate_embeddings_batch. split.
  - intros H.
    assert (Ha : aligned F create).
    { intros n batch answers E. destruct (H n batch) as (a & Ea & Hl).
      congruence. }
    assert (Hs : forall n batch, create n batch <> None).
    { intros n batch. destruct (H n batch) as (a & -> & _). discriminate. }
    apply Embed.attach_all.
    + rewrite (Embed.embed_loop_length F create) by (exact Ha || lia).
      cbn. rewrite length_map. lia.
    + apply Embed.embed_loop_some; auto. lia.
  - intros H. rewrite (Embed.embed_loop_none F create) by (exact H || lia).
    apply Embed.attach_none.
Qed.

Lemma add_all_embeddings_to_documents_all_or_none_witness :
  add_all_embeddings_to_documents nat (fun _ _ => None)
    [fixture_document; three_sections_document] 100%positive
  = [].
Proof.
  apply (proj2 (add_all_embeddings_to_documents_all_or_none nat
                  (fun _ _ => None)
                  [fixture_document; three_sections_document] 100%positive)).
  reflexivity.
Defined.

(** X27: every document [add_all_embeddings_to_documents] returns has the
    content of a document of the list, an embedding under ['embedding'], the
    length of that embedding under ['embedding_dimension'], and under every
    other key what the document of the list has. *)
Theorem add_all_embeddings_to_documents_metadata
    (F : Type) (create : nat -> list pyval -> option (list (list F)))
    (documents : list Document) (batch_size : positive)
    (out : EmbeddedDocument F) :
  In out (add_all_embeddings_to_documents F create documents batch_size) ->
  exists doc e,
    In doc documents
    /\ embedded_content out = page_content doc
    /\ embedded_metadata out !! "embedding"%string = Some (Vector e)
    /\ embedded_metadata out !! "embedding_dimension"%string
       = Some (Plain (PInt (Z.of_nat (length e))))
    /\ forall key : string,
         key <> "embedding"%string ->
         key <> "embedding_dimension"%string ->
         embedded_metadata out !! key = Plain <$> (metadata doc !! key).
Proof.
  intros H. apply Embed.attach_in in H.
  destruct H as (doc & e & Hd & _ & ->). exists doc, e.
  cbn [embedded_content embedded_metadata]. repeat split; [exact Hd| | |].
  - rewrite lookup_insert_ne by discriminate. apply lookup_insert_eq.
  - apply lookup_insert_eq.
  - intros key H1 H2. rewrite !lookup_insert_ne by congruence.
    apply lookup_fmap.
Qed.

Lemma add_all_embeddings_to_documents_metadata_witness :
  exists doc e,
    In doc [fixture_document]
    /\ embedded_content
         (mkEmbedded nat (PStr fixture)
            (<[ "embedding_dimension"%string := Plain (PInt 1) ]>
               (<[ "embedding"%string := Vector [0%nat] ]> ∅)))
       = page_content doc
    /\ embedded_metadata
         (mkEmbedded nat (PStr fixture)
            (<[ "embedding_dimension"%string := Plain (PInt 1) ]>
               (<[ "embedding"%string := Vector [0%nat] ]> ∅)))
         !! "embedding"%string
       = Some (Vector e)
    /\ embedded_metadata
         (mkEmbedded nat (PStr fixture)
            (<[ "embedding_dimension"%string := Plain (PInt 1) ]>
               (<[ "embedding"%string := Vector [0%nat] ]> ∅)))
         !! "embedding_dimension"%string
       = Some (Plain (PInt (Z.of_nat (length e))))
    /\ forall key : string,
         key <> "embedding"%string ->
         key <> "embedding_dimension"%string ->
         embedded_metadata
           (mkEmbedded nat (PStr fixture)
              (<[ "embedding_dimension"%string := Plain (PInt 1) ]>
                 (<[ "embedding"%string := Vector [0%nat] ]> ∅)))
           !! key
         = Plain <$> (metadata doc !! key).
Proof.
  apply (add_all_embeddings_to_documents_metadata nat
           (fun _ batch => Some (map (fun _ => [0%nat]) batch))
           [fixture_document] 100%positive).
  left. vm_compute. reflexivity.
Defined.
